(** * F1ClashManager: upgrade progress, stat interpolation, series matching
      and Grand Prix eligibility

    A shallow embedding of the scoring core of the repository:

    - [src/utils/utils.py]              cards-per-level tables and the
                                        upgrade-progress calculator;
    - [src/data/raw_data_processor.py]  raw level tables and the stat
                                        interpolator;
    - [src/core/series_data.py] and [modules/loadouts.py]
                                        the series catalog and the matcher;
    - [modules/grand_prix.py]           category ceilings and the
                                        eligibility checker.

    Python dictionaries are finite maps ([gmap]); Python integers are [Z];
    Python floats are modelled as exact rationals ([Q]), so every statement
    about a float is a statement about the real number the float stands for;
    the one place where a float is rounded in the model is [int(float(s))]
    of [safe_int], which is the integer part of the double nearest to [s].
    A function that can end in an uncaught exception returns an [option],
    and [None] is the exception. *)

From Stdlib Require Import ZArith QArith Qround Lqa Lia List Sorted Permutation Ascii.
From stdpp Require Import gmap strings list fin_maps pretty sorting.

Local Open Scope Z_scope.

(** ** The upgrade-progress calculator ([src/utils/utils.py]) *)

Module Upgrade.

(** [get_cards_per_level]: the per-rarity table from target level to the
    cards that level costs; any other rarity gets the empty dictionary. *)
Definition get_cards_per_level (rarity : string) : gmap Z Z :=
  if String.eqb rarity "Common" then
    list_to_map [(2, 4); (3, 10); (4, 20); (5, 50); (6, 100); (7, 200);
                 (8, 400); (9, 800); (10, 1000); (11, 5000)]
  else if String.eqb rarity "Rare" then
    list_to_map [(2, 2); (3, 5); (4, 10); (5, 20); (6, 50); (7, 100);
                 (8, 200); (9, 400); (10, 500); (11, 2000)]
  else if String.eqb rarity "Epic" then
    list_to_map [(2, 1); (3, 2); (4, 5); (5, 10); (6, 20); (7, 50);
                 (8, 100); (9, 200); (10, 250); (11, 800)]
  else if String.eqb rarity "Legendary" then
    list_to_map [(2, 1); (3, 1); (4, 2); (5, 5); (6, 10); (7, 20);
                 (8, 50); (9, 100); (10, 150); (11, 400)]
  else ∅.

(** The four rarities that have a table. *)
Definition known_rarities : list string :=
  ["Common"; "Rare"; "Epic"; "Legendary"]%string.

(** [upgradeInfo], the dictionary [update_item_upgrade_info] stores. *)
Record upgrade_info := {
  cardsOwned : Z;
  perLevel : gmap Z Z;
  maxCards : Z;
  cardsNeeded : Z;
  totalCards : Z
}.

(** The keys of an item that the calculator reads and writes. *)
Record item := {
  name : string;
  rarity : string;
  level : Z;
  highestLevel : option Z;
  upgradeInfo : option upgrade_info
}.

(** Python's [range(a, b)]. *)
Definition range (a b : Z) : list Z := seqZ a (b - a).

(** [cards_per_level.get(level, 0)]. *)
Definition cost (cards_per_level : gmap Z Z) (l : Z) : Z :=
  default 0 (cards_per_level !! l).

(** The [for level in range(...)] loop of [calculate_highest_level], with
    its [break]: the running balance and the last level paid for. *)
Fixpoint walk_levels (cards_per_level : gmap Z Z) (levels : list Z)
    (cards_owned highest_level : Z) : Z :=
  match levels with
  | [] => highest_level
  | l :: rest =>
      let cards_needed := cost cards_per_level l in
      if cards_needed <=? cards_owned
      then walk_levels cards_per_level rest (cards_owned - cards_needed) l
      else highest_level
  end.

Definition calculate_highest_level (it : item) (cards_owned : Z) : Z :=
  if level it =? 0 then 0
  else
    let cards_per_level := get_cards_per_level (rarity it) in
    let current_level := level it in
    walk_levels cards_per_level (range (current_level + 1) 12)
      cards_owned current_level.

(** [sum(cards_per_level.values())]. *)
Definition sum_values (m : gmap Z Z) : Z :=
  foldr Z.add 0 (snd <$> map_to_list m).

(** [sum([cards_per_level.get(level, 0) for level in levels])]. *)
Definition sum_costs (cards_per_level : gmap Z Z) (levels : list Z) : Z :=
  foldr Z.add 0 (cost cards_per_level <$> levels).

Definition update_item_upgrade_info (it : item) (cards_owned : Z) : item :=
  let cards_per_level := get_cards_per_level (rarity it) in
  let max_cards := sum_values cards_per_level in
  let highest_level := calculate_highest_level it cards_owned in
  let used_cards := sum_costs cards_per_level (range 2 (level it + 1)) in
  let total_cards := cards_owned + used_cards in
  let remaining_levels := range (level it + 1) 12 in
  let cards_needed := sum_costs cards_per_level remaining_levels in
  {| name := name it;
     rarity := rarity it;
     level := level it;
     highestLevel := Some highest_level;
     upgradeInfo := Some {| cardsOwned := cards_owned;
                            perLevel := cards_per_level;
                            maxCards := max_cards;
                            cardsNeeded := cards_needed;
                            totalCards := total_cards |} |}.

(** An item as the callers build it before the calculator runs. *)
Definition fresh_item (n r : string) (l : Z) : item :=
  {| name := n; rarity := r; level := l;
     highestLevel := None; upgradeInfo := None |}.

End Upgrade.

(** ** Raw level tables and the stat interpolator
       ([src/data/raw_data_processor.py]) *)

Module Interp.

(** The scan of [get_component_stats] / [get_driver_stats] over the sorted
    level numbers:
    [for l in level_numbers: if l < level: lower_level = l
                             elif l > level: higher_level = l; break]. *)
Fixpoint scan_levels (level : Z) (level_numbers : list Z)
    (lower_level : option Z) : option Z * option Z :=
  match level_numbers with
  | [] => (lower_level, None)
  | l :: rest =>
      if l <? level then scan_levels level rest (Some l)
      else if level <? l then (lower_level, Some l)
      else scan_levels level rest lower_level
  end.

(** [level_numbers = [int(l) for l in levels.keys()]; level_numbers.sort()].
    The keys of a level table are the decimal strings [str(level)] that the
    processors write, so a table is keyed by the level itself. *)
Definition sorted_level_numbers {A} (levels : gmap Z A) : list Z :=
  merge_sort Z.le (map_to_list levels).*1.

(** [factor = (level - lower_level) / (higher_level - lower_level)]. *)
Definition factor (level lower_level higher_level : Z) : Q :=
  (inject_Z (level - lower_level) / inject_Z (higher_level - lower_level))%Q.

(** [lower + factor * (higher - lower)]. *)
Definition lerp (f lower higher : Q) : Q := (lower + f * (higher - lower))%Q.

(** Python's [round(x)] with one argument: nearest integer, ties to even. *)
Definition py_round (x : Q) : Z :=
  let fl := Qfloor x in
  match (x - inject_Z fl ?= 1 # 2)%Q with
  | Lt => fl
  | Gt => fl + 1
  | Eq => if Z.even fl then fl else fl + 1
  end.

End Interp.

Module Components.

(** One entry of a component's ["levels"] dictionary. *)
Record level_stats := {
  level : Z;
  speed : Q;
  cornering : Q;
  power_unit : Q;
  qualifying : Q;
  pit_time : Q;
  total_value : Q
}.

(** One entry of [component_raw_data.json]. *)
Record component := {
  name : string;
  type : string;
  rarity : string;
  series : Z;
  levels : gmap Z level_stats
}.

(** A CSV row of a component as pandas hands it over: a missing cell (NaN)
    is [None]. *)
Record row := {
  Level : Z;
  Speed : option Q;
  Cornering : option Q;
  Power_Unit : option Q;
  Qualifying : option Q;
  Pit_Time : option Q
}.

(** The dictionary [process_component_raw_data] stores for one row. *)
Definition level_entry (r : row) : level_stats :=
  let pit_time := default 0%Q (Pit_Time r) in
  let speed := default 0%Q (Speed r) in
  let cornering := default 0%Q (Cornering r) in
  let power_unit := default 0%Q (Power_Unit r) in
  let qualifying := default 0%Q (Qualifying r) in
  {| level := Level r;
     speed := speed;
     cornering := cornering;
     power_unit := power_unit;
     qualifying := qualifying;
     pit_time := pit_time;
     total_value := (speed + cornering + power_unit + qualifying + pit_time)%Q |}.

(** [for _, row in component_df.iterrows(): levels[str(level)] = {...}]. *)
Definition process_rows (rows : list row) : gmap Z level_stats :=
  foldl (λ lv r, <[Level r := level_entry r]> lv) ∅ rows.

(** The interpolated dictionary of [get_component_stats]. *)
Definition interpolated_stats (lvl : Z) (f : Q)
    (lower_stats higher_stats : level_stats) : level_stats :=
  let speed := Interp.lerp f (speed lower_stats) (speed higher_stats) in
  let cornering := Interp.lerp f (cornering lower_stats) (cornering higher_stats) in
  let power_unit := Interp.lerp f (power_unit lower_stats) (power_unit higher_stats) in
  let qualifying := Interp.lerp f (qualifying lower_stats) (qualifying higher_stats) in
  let pit_time := Interp.lerp f (pit_time lower_stats) (pit_time higher_stats) in
  {| level := lvl;
     speed := speed;
     cornering := cornering;
     power_unit := power_unit;
     qualifying := qualifying;
     pit_time := pit_time;
     total_value := (speed + cornering + power_unit + qualifying + pit_time)%Q |}.

(** [get_component_stats]; [None] is Python's [None]. *)
Definition get_component_stats (raw_data : gmap string component)
    (component_name : string) (lvl : Z) (interpolate : bool)
    : option level_stats :=
  match raw_data !! component_name with
  | None => None
  | Some component =>
      let levels := levels component in
      match levels !! lvl with
      | Some stats => Some stats
      | None =>
          if interpolate then
            match Interp.scan_levels lvl (Interp.sorted_level_numbers levels) None with
            | (Some lower_level, Some higher_level) =>
                match levels !! lower_level, levels !! higher_level with
                | Some lower_stats, Some higher_stats =>
                    let f := Interp.factor lvl lower_level higher_level in
                    Some (interpolated_stats lvl f lower_stats higher_stats)
                | _, _ => None
                end
            | (Some lower_level, None) => levels !! lower_level
            | (None, Some higher_level) => levels !! higher_level
            | (None, None) => None
            end
          else None
      end
  end.

(** The raw data file as [process_component_raw_data] writes it: every
    level table comes from rows. *)
Definition written_by_processor (raw_data : gmap string component) : Prop :=
  ∀ n c, raw_data !! n = Some c → ∃ rows, levels c = process_rows rows.

(** The sum the processor and the interpolator store as ["total_value"]. *)
Definition stats_sum (e : level_stats) : Q :=
  (speed e + cornering e + power_unit e + qualifying e + pit_time e)%Q.

End Components.

Module Drivers.

(** One entry of a driver's ["levels"] dictionary; the processor stores
    every stat through [int(...)]. *)
Record level_stats := {
  level : Z;
  overtaking : Z;
  defending : Z;
  qualifying : Z;
  race_start : Z;
  tyre_mgmt : Z;
  total_value : Z
}.

(** One entry of [driver_raw_data.json]. *)
Record driver := {
  name : string;
  rarity : string;
  series : Z;
  levels : gmap Z level_stats
}.

(** [round(lower + factor * (higher - lower))] on integer samples. *)
Definition interp (f : Q) (lower higher : Z) : Z :=
  Interp.py_round (Interp.lerp f (inject_Z lower) (inject_Z higher)).

(** The interpolated dictionary of [get_driver_stats]. *)
Definition interpolated_stats (lvl : Z) (f : Q)
    (lower_stats higher_stats : level_stats) : level_stats :=
  let overtaking := interp f (overtaking lower_stats) (overtaking higher_stats) in
  let defending := interp f (defending lower_stats) (defending higher_stats) in
  let qualifying := interp f (qualifying lower_stats) (qualifying higher_stats) in
  let race_start := interp f (race_start lower_stats) (race_start higher_stats) in
  let tyre_mgmt := interp f (tyre_mgmt lower_stats) (tyre_mgmt higher_stats) in
  {| level := lvl;
     overtaking := overtaking;
     defending := defending;
     qualifying := qualifying;
     race_start := race_start;
     tyre_mgmt := tyre_mgmt;
     total_value := overtaking + defending + qualifying + race_start + tyre_mgmt |}.

(** [get_driver_stats]; the table key is [f"{driver_name}_{rarity}"]. *)
Definition get_driver_stats (raw_data : gmap string driver)
    (driver_name rarity : string) (lvl : Z) (interpolate : bool)
    : option level_stats :=
  let key := (driver_name +:+ "_" +:+ rarity)%string in
  match raw_data !! key with
  | None => None
  | Some driver =>
      let levels := levels driver in
      match levels !! lvl with
      | Some stats => Some stats
      | None =>
          if interpolate then
            match Interp.scan_levels lvl (Interp.sorted_level_numbers levels) None with
            | (Some lower_level, Some higher_level) =>
                match levels !! lower_level, levels !! higher_level with
                | Some lower_stats, Some higher_stats =>
                    let f := Interp.factor lvl lower_level higher_level in
                    Some (interpolated_stats lvl f lower_stats higher_stats)
                | _, _ => None
                end
            | (Some lower_level, None) => levels !! lower_level
            | (None, Some higher_level) => levels !! higher_level
            | (None, None) => None
            end
          else None
      end
  end.

End Drivers.

(** ** Text helpers ([modules/utils.py], [src/utils/utils.py]) *)

(** Strings are ASCII text.  [safe_int] is [int(float(value))] after the
    commas are removed: [float] reads a decimal literal (with underscores
    between digits and an optional exponent), [inf], [infinity] and [nan],
    and rounds to the nearest double; [int] truncates the double.  The
    [ValueError] of a string that is no literal, and of [nan], is caught and
    gives 0; the [OverflowError] of an infinite double is not caught. *)
Module Text.

Local Open Scope string_scope.

(** [value.replace(',', '')]. *)
Fixpoint remove_commas (s : string) : string :=
  match s with
  | EmptyString => EmptyString
  | String c rest =>
      if Ascii.eqb c ","%char then remove_commas rest
      else String c (remove_commas rest)
  end.

(** The ASCII characters that [float] takes for white space: 9 to 13 and
    the space. *)
Definition is_space (c : ascii) : bool :=
  let n := nat_of_ascii c in
  (((9 <=? n) && (n <=? 13)) || (n =? 32))%nat.

Fixpoint lstrip (s : string) : string :=
  match s with
  | String c rest => if is_space c then lstrip rest else s
  | EmptyString => EmptyString
  end.

(** The argument of [float] without its leading and trailing white space. *)
Definition strip (s : string) : string :=
  String.rev (lstrip (String.rev (lstrip s))).

Definition lower_char (c : ascii) : ascii :=
  let n := nat_of_ascii c in
  if ((65 <=? n) && (n <=? 90))%nat then ascii_of_nat (n + 32) else c.

Fixpoint lower (s : string) : string :=
  match s with
  | EmptyString => EmptyString
  | String c rest => String (lower_char c) (lower rest)
  end.

Definition starts_with_digit (s : string) : bool :=
  match s with
  | String c _ => bool_decide (is_Some (Ascii.is_nat c))
  | EmptyString => false
  end.

(** The longest prefix of [s] that continues a run of digits in which an
    underscore stands between two digits only: the value of the digits
    (continuing [acc]), their number (continuing [n]) and the rest. *)
Fixpoint span_digitpart (s : string) (acc : Z) (n : nat) : Z * nat * string :=
  match s with
  | String c rest =>
      match Ascii.is_nat c with
      | Some d => span_digitpart rest (10 * acc + Z.of_nat d)%Z (S n)
      | None =>
          if Ascii.eqb c "_"%char && (0 <? n)%nat && starts_with_digit rest
          then span_digitpart rest acc n
          else (acc, n, s)
      end
  | EmptyString => (acc, n, EmptyString)
  end.

(** An optional exponent that ends the literal: [e] or [E], an optional
    sign and digits.  [None] when [s] is something else. *)
Definition parse_exponent (s : string) : option Z :=
  match s with
  | EmptyString => Some 0%Z
  | String c rest =>
      if Ascii.eqb (lower_char c) "e"%char then
        let '(negative, digits) :=
          match rest with
          | String "-"%char r => (true, r)
          | String "+"%char r => (false, r)
          | _ => (false, rest)
          end in
        match span_digitpart digits 0 0 with
        | (x, n, EmptyString) =>
            if (0 <? n)%nat then Some (if negative then - x else x)%Z else None
        | _ => None
        end
      else None
  end.

(** What [float] reads: a number [num / den], or one of the two specials. *)
Inductive float_literal :=
  | Finite (num den : Z)
  | Infinity
  | NaN.

(** The mantissa [m] of [n] digits, [f] of them after the point, times ten
    to the [x], as a fraction.  From ten to the 400 on the nearest double
    is the infinite one, and below ten to the -400 it is 0: these two are
    answered without the power of ten. *)
Definition decimal (m : Z) (n f : nat) (x : Z) : float_literal :=
  let p := (x - Z.of_nat f)%Z in
  if (m =? 0)%Z then Finite 0 1
  else if (400 <? p)%Z then Infinity
  else if (p + Z.of_nat n <? -400)%Z then Finite 0 1
  else if (0 <=? p)%Z then Finite (m * 10 ^ p) 1
  else Finite m (10 ^ (- p)).

(** A literal without sign: [digits[.digits]] or [.digits], then the
    exponent; or [inf], [infinity], [nan] in any case. *)
Definition parse_unsigned (s : string) : option float_literal :=
  let l := lower s in
  if String.eqb l "inf" || String.eqb l "infinity" then Some Infinity
  else if String.eqb l "nan" then Some NaN
  else
    match span_digitpart s 0 0 with
    | (ip, n1, String "."%char frac) =>
        match span_digitpart frac ip 0 with
        | (m, n2, rest) =>
            if (0 <? n1 + n2)%nat
            then decimal m (n1 + n2) n2 <$> parse_exponent rest
            else None
        end
    | (ip, n1, rest) =>
        if (0 <? n1)%nat then decimal ip n1 0 <$> parse_exponent rest else None
    end.

(** [float(s)] before rounding: the sign and the literal; [None] is the
    [ValueError] of a string that is no literal. *)
Definition parse_float (s : string) : option (bool * float_literal) :=
  match strip s with
  | String "-"%char rest => pair true <$> parse_unsigned rest
  | String "+"%char rest => pair false <$> parse_unsigned rest
  | t => pair false <$> parse_unsigned t
  end.

(** [a / b] rounded to the nearest integer, ties to even, for [b > 0]. *)
Definition round_half_even (a b : Z) : Z :=
  let q := (a / b)%Z in
  match (2 * (a mod b) ?= b)%Z with
  | Lt => q
  | Gt => (q + 1)%Z
  | Eq => if Z.even q then q else (q + 1)%Z
  end.

(** [num / den] divided by two to the [e], as a fraction. *)
Definition scale (num den e : Z) : Z * Z :=
  if (0 <=? e)%Z then (num, den * 2 ^ e)%Z else (num * 2 ^ (- e), den)%Z.

(** The integer part of the base two logarithm of [num / den], for
    positive [num] and [den]. *)
Definition floor_log2 (num den : Z) : Z :=
  let k := (Z.log2 num - Z.log2 den)%Z in
  let '(a, b) := scale num den k in
  if (b <=? a)%Z then k else (k - 1)%Z.

(** [int(x)] for the double [x] nearest to [num / den >= 0]: the double is
    [m * 2 ^ e] with 53 bits in [m] and [e >= -1074]; [None] when the
    double is infinite, from two to the 1024 on. *)
Definition int_of_double (num den : Z) : option Z :=
  if (num =? 0)%Z then Some 0%Z
  else
    let e := Z.max (floor_log2 num den - 52) (-1074) in
    let '(a, b) := scale num den e in
    let m := round_half_even a b in
    if (0 <=? e)%Z then
      if (2 ^ 1024 <=? m * 2 ^ e)%Z then None else Some (m * 2 ^ e)%Z
    else Some (m / 2 ^ (- e))%Z.

(** The three ways [int(float(s))] can end. *)
Inductive conversion :=
  | Returns (z : Z)
  | ValueError
  | OverflowError.

Definition int_of_float (s : string) : conversion :=
  match parse_float s with
  | None => ValueError
  | Some (_, NaN) => ValueError
  | Some (_, Infinity) => OverflowError
  | Some (negative, Finite num den) =>
      match int_of_double num den with
      | Some z => Returns (if negative then - z else z)%Z
      | None => OverflowError
      end
  end.

(** [safe_int] on a string ([pd.isna] of a string is false): [None] is the
    [OverflowError] that [except (ValueError, TypeError)] lets through. *)
Definition safe_int (value : string) : option Z :=
  match int_of_float (remove_commas value) with
  | Returns z => Some z
  | ValueError => Some 0%Z
  | OverflowError => None
  end.

(** [s.split(" - ")]: [cur] holds the current piece, reversed. *)
Fixpoint split_go (s cur : string) : list string :=
  match s with
  | String " "%char (String "-"%char (String " "%char rest)) =>
      String.rev cur :: split_go rest EmptyString
  | String c rest => split_go rest (String c cur)
  | EmptyString => [String.rev cur]
  end.

Definition split_ts (s : string) : list string := split_go s EmptyString.

End Text.

(** ** The series catalog and the matchers
       ([src/core/series_data.py], [modules/loadouts.py]) *)

Module Series.

Local Open Scope string_scope.

Record series_info := {
  series : Z;
  track_stats : string;
  recommended_ts : string
}.

Definition DEFAULT_SERIES_DATA : list series_info :=
  [ {| series := 1; track_stats := "Defending"; recommended_ts := "0 - 350" |};
    {| series := 2; track_stats := "Tyre Mgmt"; recommended_ts := "250 - 450" |};
    {| series := 3; track_stats := "Speed"; recommended_ts := "350 - 600" |};
    {| series := 4; track_stats := "Overtaking"; recommended_ts := "450 - 700" |};
    {| series := 5; track_stats := "Cornering"; recommended_ts := "550 - 800" |};
    {| series := 6; track_stats := "Race Start"; recommended_ts := "650 - 900" |};
    {| series := 7; track_stats := "Power Unit"; recommended_ts := "750 - 1000" |};
    {| series := 8; track_stats := "Defending"; recommended_ts := "850 - 1100" |};
    {| series := 9; track_stats := "Speed"; recommended_ts := "950 - 1200" |};
    {| series := 10; track_stats := "Rotating"; recommended_ts := "1050 - 1300" |};
    {| series := 11; track_stats := "Rotating"; recommended_ts := "1250 - 1550" |};
    {| series := 12; track_stats := "Rotating"; recommended_ts := "1450 - 1799" |} ]
  ++ [ {| series := 0; track_stats := "Custom"; recommended_ts := "1000+" |} ].

Definition TRACK_STATS_TO_ATTRIBUTES : gmap string string :=
  list_to_map
    [ ("Defending", "defending");
      ("Tyre Mgmt", "tyre_mgmt");
      ("Speed", "speed");
      ("Overtaking", "overtaking");
      ("Cornering", "cornering");
      ("Race Start", "race_start");
      ("Power Unit", "power_unit");
      ("Custom", "custom") ].

(** The dictionary [get_rotating_series_attributes] falls back to. *)
Definition default_rotating_attributes : gmap string string :=
  list_to_map [ ("10", "Speed"); ("11", "Cornering"); ("12", "Power Unit") ].

(** The ["calculations"] block of a loadout; a key that is missing from the
    dictionary is [None]. *)
Record calculations := {
  car_stats : option (gmap string Q);
  driver_stats : option (gmap string Q);
  total_value : option Q
}.

Record loadout := {
  id : Z;
  title : string;
  calcs : option calculations
}.

(** [track_stats == "Rotating" and rotating_attributes
     and str(series_num) in rotating_attributes]: the label after the
    rotating override. *)
Definition resolve_track_stats (rotating_attributes : option (gmap string string))
    (series_num : Z) (track_stats : string) : string :=
  if String.eqb track_stats "Rotating" then
    match rotating_attributes with
    | Some attrs => default track_stats (attrs !! pretty series_num)
    | None => track_stats
    end
  else track_stats.

(** [TRACK_STATS_TO_ATTRIBUTES.get(track_stats, "speed")]. *)
Definition focus_of (track_stats : string) : string :=
  default "speed" (TRACK_STATS_TO_ATTRIBUTES !! track_stats).

Definition Qlt_bool (x y : Q) : bool := negb (Qle_bool y x).

(** [d.get(k, dflt)] on a stat dictionary. *)
Definition get (d : gmap string Q) (k : string) (dflt : Q) : Q :=
  default dflt (d !! k).

(** [safe_int(ts_range[0]) if len(ts_range) > 0 else 0]; [None] when
    [safe_int] raises. *)
Definition min_ts (ts_range : list string) : option Z :=
  match ts_range with
  | x :: _ => Text.safe_int x
  | [] => Some 0%Z
  end.

(** [safe_int(ts_range[1]) if len(ts_range) > 1 else 9999]. *)
Definition max_ts (ts_range : list string) : option Z :=
  match ts_range with
  | _ :: y :: _ => Text.safe_int y
  | _ => Some 9999%Z
  end.

(** [if total_value < min_ts: ... elif total_value > max_ts: ...]. *)
Definition range_penalty (min_ts max_ts : Z) (total_value score : Q) : Q :=
  if Qlt_bool total_value (inject_Z min_ts)
  then (score - (inject_Z min_ts - total_value) * 0.5)%Q
  else if Qlt_bool (inject_Z max_ts) total_value
  then (score - (total_value - inject_Z max_ts) * 0.2)%Q
  else score.

(** The range check shared by both matchers: the two bounds are read, the
    lower one first, then the penalty is taken off.  [None] is the
    [OverflowError] of a bound; it ends the matcher that asked. *)
Definition apply_ts_range (recommended_ts : string) (total_value score : Q)
    : option Q :=
  let ts_range := Text.split_ts recommended_ts in
  lo ← min_ts ts_range;
  hi ← max_ts ts_range;
  Some (range_penalty lo hi total_value score).

(** The score part from the car stats, the same in both matchers. *)
Definition car_score (focus_attribute : string) (car_stats : gmap string Q)
    (score : Q) : Q :=
  if bool_decide (focus_attribute ∈ ["speed"; "cornering"; "power_unit"; "qualifying"])
  then (score + get car_stats focus_attribute 0 * 2)%Q
  else if String.eqb focus_attribute "pit_time"
  then (score + (5.0 - get car_stats "pit_time" 5.0) * 20)%Q
  else score.

(** The body of the loop of [find_matching_series_for_loadout] for one
    series, from [score = 0] to the range penalty. *)
Definition series_score (focus_attribute : string)
    (car_stats driver_stats : gmap string Q) (total_value : Q)
    (recommended_ts : string) : option Q :=
  let score := 0%Q in
  let score := car_score focus_attribute car_stats score in
  let score :=
    if bool_decide (focus_attribute ∈
         ["overtaking"; "defending"; "qualifying"; "race_start"; "tyre_mgmt"])
    then
      let value :=
        if String.eqb focus_attribute "race_start"
        then get driver_stats "race_start" (get driver_stats "raceStart" 0)
        else if String.eqb focus_attribute "tyre_mgmt"
        then get driver_stats "tyre_mgmt" (get driver_stats "tyreMgmt" 0)
        else get driver_stats focus_attribute 0 in
      (score + value)%Q
    else score in
  let score := (score + total_value * 0.1)%Q in
  apply_ts_range recommended_ts total_value score.

(** One entry of the ranking. *)
Record series_entry := {
  e_series : Z;
  e_track_stats : string;
  e_score : Q
}.

(** Insertion of [x] into a list sorted by descending key, before the first
    element whose key is not larger. *)
Fixpoint insert_desc {A} (key : A → Q) (x : A) (l : list A) : list A :=
  match l with
  | [] => [x]
  | y :: l' =>
      if Qle_bool (key y) (key x) then x :: l
      else y :: insert_desc key x l'
  end.

(** [l.sort(key=key, reverse=True)]: descending, and elements with equal
    keys keep their order. *)
Definition sort_desc {A} (key : A → Q) (l : list A) : list A :=
  foldr (insert_desc key) [] l.

Definition car_stats_of (l : loadout) : gmap string Q :=
  default ∅ (car_stats (default {| car_stats := None; driver_stats := None;
                                   total_value := None |} (calcs l))).
Definition driver_stats_of (l : loadout) : gmap string Q :=
  default ∅ (driver_stats (default {| car_stats := None; driver_stats := None;
                                      total_value := None |} (calcs l))).
Definition total_value_of (l : loadout) : Q :=
  default 0%Q (total_value (default {| car_stats := None; driver_stats := None;
                                       total_value := None |} (calcs l))).

(** The entry the loop appends for a series other than 0. *)
Definition entry_for (rotating_attributes : option (gmap string string))
    (l : loadout) (series_info : series_info) : option series_entry :=
  let series_num := series series_info in
  let track_stats :=
    resolve_track_stats rotating_attributes series_num (track_stats series_info) in
  let focus_attribute := focus_of track_stats in
  score ← series_score focus_attribute (car_stats_of l) (driver_stats_of l)
             (total_value_of l) (recommended_ts series_info);
  Some {| e_series := series_num;
          e_track_stats := track_stats;
          e_score := score |}.

(** The list [series_scores] when the loop ends: series 0 is skipped, and
    an exception in the body for a series ends the loop. *)
Definition series_scores (SERIES_DATA : list series_info)
    (rotating_attributes : option (gmap string string)) (l : loadout)
    : option (list series_entry) :=
  mapM (entry_for rotating_attributes l)
    (filter (λ si, series si ≠ 0%Z) SERIES_DATA).

(** [find_matching_series_for_loadout]; the catalog [SERIES_DATA] and the
    result of [get_rotating_series_attributes()] are its ambient inputs.
    [None] is the exception the function ends with. *)
Definition find_matching_series_for_loadout (SERIES_DATA : list series_info)
    (rotating_attributes : option (gmap string string)) (l : loadout)
    : option (list series_entry) :=
  scores ← series_scores SERIES_DATA rotating_attributes l;
  Some (take 5 (sort_desc e_score scores)).

(** The score of one loadout in [find_best_loadouts_for_series]. *)
Definition loadout_score (focus_attribute : string) (recommended_ts : string)
    (l : loadout) : option Q :=
  let car_stats := car_stats_of l in
  let driver_stats := driver_stats_of l in
  let total_value := total_value_of l in
  let score := 0%Q in
  let score := car_score focus_attribute car_stats score in
  let score :=
    if bool_decide (focus_attribute ∈ ["overtaking"; "defending"; "qualifying"])
    then (score + get driver_stats focus_attribute 0)%Q
    else if String.eqb focus_attribute "race_start"
    then (score + get driver_stats "race_start" (get driver_stats "raceStart" 0))%Q
    else if String.eqb focus_attribute "tyre_mgmt"
    then (score + get driver_stats "tyre_mgmt" (get driver_stats "tyreMgmt" 0))%Q
    else score in
  let score := (score + total_value * 0.1)%Q in
  apply_ts_range recommended_ts total_value score.

(** [find_best_loadouts_for_series]: the loadouts paired with their scores,
    best first; [rotating_attributes] defaults to [None].  [None] as a
    result is the exception the function ends with. *)
Definition find_best_loadouts_for_series (SERIES_DATA : list series_info)
    (series_number : Z) (loadouts : list loadout)
    (rotating_attributes : option (gmap string string))
    : option (list (loadout * Q)) :=
  match find (λ s, series s =? series_number)%Z SERIES_DATA with
  | None => Some []
  | Some series_info =>
      let track_stats :=
        resolve_track_stats rotating_attributes series_number
          (track_stats series_info) in
      let focus_attribute := focus_of track_stats in
      loadout_scores ←
        mapM (λ l, score ← loadout_score focus_attribute
                             (recommended_ts series_info) l;
                   Some (l, score)) loadouts;
      Some (sort_desc snd loadout_scores)
  end.

(** No override is supplied for series [series_num]: there is no
    dictionary, or it has no entry under [str(series_num)]. *)
Definition no_override (rotating_attributes : option (gmap string string))
    (series_num : Z) : Prop :=
  match rotating_attributes with
  | Some attrs => attrs !! pretty series_num = None
  | None => True
  end.

(** Descending order of the ranking: [a] may stand before [b]. *)
Definition score_desc (a b : series_entry) : Prop :=
  (e_score b <= e_score a)%Q.

(** Both bounds of a recommended range can be read: neither is the
    spelling of an infinite float. *)
Definition ts_converts (recommended_ts : string) : Prop :=
  is_Some (min_ts (Text.split_ts recommended_ts))
  ∧ is_Some (max_ts (Text.split_ts recommended_ts)).

(** What a score with the focus on speed is, given the two bounds: twice
    the car's speed plus a tenth of the total value, less half of what the
    total value lacks below the range, or a fifth of what it has above. *)
Definition scored_on_speed (car_stats : gmap string Q) (total_value : Q)
    (lo hi : Z) (score : Q) : Prop :=
  let base := (get car_stats "speed" 0 * 2 + total_value * 0.1)%Q in
  ((total_value < inject_Z lo)%Q →
     (score == base - (inject_Z lo - total_value) * 0.5)%Q)
  ∧ ((inject_Z lo <= total_value)%Q → (inject_Z hi < total_value)%Q →
     (score == base - (total_value - inject_Z hi) * 0.2)%Q)
  ∧ ((inject_Z lo <= total_value)%Q → (total_value <= inject_Z hi)%Q →
     (score == base)%Q).

End Series.

(** ** Grand Prix categories and the eligibility checker
       ([modules/grand_prix.py], [modules/data_manager.py]) *)

Module GrandPrix.

Local Open Scope string_scope.

Record category := {
  max_series : Z;
  description : string
}.

Definition GP_CATEGORIES : gmap string category :=
  list_to_map
    [ ("Challenger", {| max_series := 6;
         description := "Components and drivers from series 6 and below" |});
      ("Contender", {| max_series := 9;
         description := "Components and drivers from series 9 and below" |});
      ("Champion", {| max_series := 12;
         description := "No limitations on components and drivers" |}) ].

(** A driver or component of a catalog document: the two keys the series
    lookups read, [None] when the key is missing. *)
Record catalog_item := {
  name : option string;
  series : option Z
}.

(** A parsed catalog document maps a key (["drivers"], ["brakes"], ...) to
    its list of items; the file store maps a path to its document, and a
    path without a document is a file [load_json_data] cannot read. *)
Abbreviation document := (gmap string (list catalog_item)).
Abbreviation file_store := (gmap string (gmap string (list catalog_item))).

Definition DRIVERS_FILE : string := "drivers.json".

(** The dictionary [COMPONENT_FILES], in insertion order. *)
Definition COMPONENT_FILES : list (string * string) :=
  [ ("Brakes", "components_brakes.json");
    ("Gearbox", "components_gearbox.json");
    ("Rear Wing", "components_rearwing.json");
    ("Front Wing", "components_frontwing.json");
    ("Suspension", "components_suspension.json");
    ("Engine", "components_engine.json") ].

(** [load_json_data]: the parsed document, or [None] after an exception. *)
Definition load_json_data (files : file_store) (file_path : string)
    : option document :=
  files !! file_path.

(** [c.lower()] on an ASCII letter. *)
Definition lower_ascii (c : ascii) : ascii :=
  let n := nat_of_ascii c in
  if ((65 <=? n) && (n <=? 90))%nat then ascii_of_nat (n + 32) else c.

(** [component_type.lower().replace(" ", "_")]. *)
Fixpoint type_key (component_type : string) : string :=
  match component_type with
  | EmptyString => EmptyString
  | String c rest =>
      let c' := lower_ascii c in
      String (if Ascii.eqb c' " "%char then "_"%char else c') (type_key rest)
  end.

(** [for item in items: if item.get("name") == wanted:
       return item.get("series", 0)]; [None] when the loop runs out. *)
Fixpoint find_series (wanted : string) (items : list catalog_item) : option Z :=
  match items with
  | [] => None
  | item :: rest =>
      if bool_decide (name item = Some wanted)
      then Some (default 0%Z (series item))
      else find_series wanted rest
  end.

(** The loop of [get_component_series] over [COMPONENT_FILES.items()]. *)
Fixpoint component_series_in (files : file_store) (component_name : string)
    (component_files : list (string * string)) : Z :=
  match component_files with
  | [] => 0%Z
  | (component_type, file_path) :: rest =>
      match load_json_data files file_path with
      | Some components_data =>
          if bool_decide (components_data ≠ ∅) then
            let key := type_key component_type in
            let components := default [] (components_data !! key) in
            match find_series component_name components with
            | Some s => s
            | None => component_series_in files component_name rest
            end
          else component_series_in files component_name rest
      | None => component_series_in files component_name rest
      end
  end.

Definition get_component_series (files : file_store) (component_name : string) : Z :=
  component_series_in files component_name COMPONENT_FILES.

Definition get_driver_series (files : file_store) (driver_name : string) : Z :=
  match load_json_data files DRIVERS_FILE with
  | Some drivers_data =>
      if bool_decide (drivers_data ≠ ∅) then
        let drivers := default [] (drivers_data !! "drivers") in
        default 0%Z (find_series driver_name drivers)
      else 0%Z
  | None => 0%Z
  end.

(** A driver or component slot of a loadout: only its ["name"] is read. *)
Record slot := {
  slot_name : option string
}.

(** The two keys of a loadout the checker reads; a missing key is [None].
    ["components"] is a dictionary from component type to slot, kept in its
    insertion order. *)
Record loadout := {
  drivers : option (list slot);
  components : option (list (string * slot))
}.

(** [x.get("name")] as a condition: present and not the empty string. *)
Definition named (s : slot) : option string :=
  match slot_name s with
  | Some n => if String.eqb n EmptyString then None else Some n
  | None => None
  end.

(** One of the two loops of [is_loadout_valid_for_category]: [false] stands
    for its [return False]. *)
Fixpoint within_ceiling (series_of : string → Z) (max_series : Z)
    (slots : list slot) : bool :=
  match slots with
  | [] => true
  | s :: rest =>
      match named s with
      | Some n =>
          if (max_series <? series_of n)%Z then false
          else within_ceiling series_of max_series rest
      | None => within_ceiling series_of max_series rest
      end
  end.

Definition is_loadout_valid_for_category (files : file_store) (l : loadout)
    (category : string) : bool :=
  match GP_CATEGORIES !! category with
  | None => false
  | Some cat =>
      let max_series := max_series cat in
      if within_ceiling (get_driver_series files) max_series
           (default [] (drivers l))
      then within_ceiling (get_component_series files) max_series
             (snd <$> default [] (components l))
      else false
  end.

(** [n] appears in no catalog document: no item of any list of any
    document of the store has it as its name. *)
Definition absent (files : file_store) (n : string) : Prop :=
  map_Forall (λ _ (doc : document),
    map_Forall (λ _ (items : list catalog_item),
      Forall (λ item, name item ≠ Some n) items) doc) files.

End GrandPrix.

(** ** Sample tables *)

(** The Stabiliser at level 8, the first case of [tests/test_raw_data.py]. *)
Definition stabiliser_row : Components.row :=
  {| Components.Level := 8;
     Components.Speed := Some 8%Q;
     Components.Cornering := Some 8%Q;
     Components.Power_Unit := Some 7%Q;
     Components.Qualifying := Some 9%Q;
     Components.Pit_Time := Some 0.77%Q |}.

Definition speed_row (l : Z) (s : Q) : Components.row :=
  {| Components.Level := l;
     Components.Speed := Some s;
     Components.Cornering := None;
     Components.Power_Unit := None;
     Components.Qualifying := None;
     Components.Pit_Time := Some 0.5%Q |}.

Definition sample_component (rows : list Components.row) : gmap string Components.component :=
  {[ "Sample"%string :=
       {| Components.name := "Sample";
          Components.type := "Brakes";
          Components.rarity := "Common";
          Components.series := 1;
          Components.levels := Components.process_rows rows |} ]}.

(** Samples at levels 5 and 9. *)
Definition two_samples : gmap string Components.component :=
  sample_component [speed_row 5 10; speed_row 9 20].

(** Samples at levels 1, 3 and 7 whose speed peaks at level 3. *)
Definition three_samples : gmap string Components.component :=
  sample_component [speed_row 1 10; speed_row 3 100; speed_row 7 20].

Definition driver_entry (l s : Z) : Drivers.level_stats :=
  {| Drivers.level := l;
     Drivers.overtaking := s;
     Drivers.defending := s;
     Drivers.qualifying := s;
     Drivers.race_start := s;
     Drivers.tyre_mgmt := s;
     Drivers.total_value := s + s + s + s + s |}.

Definition sample_driver : gmap string Drivers.driver :=
  {[ "Bottas_Epic"%string :=
       {| Drivers.name := "Bottas";
          Drivers.rarity := "Epic";
          Drivers.series := 3;
          Drivers.levels := {[ 2 := driver_entry 2 50; 5 := driver_entry 5 69 ]} |} ]}.

(** A small catalog: three drivers, one of them without a ["series"] key,
    and two component files. *)
Definition sample_files : gmap string (gmap string (list GrandPrix.catalog_item)) :=
  list_to_map
    [ ("drivers.json"%string,
        {[ "drivers"%string :=
             [ {| GrandPrix.name := Some "Verstappen"%string; GrandPrix.series := Some 7 |};
               {| GrandPrix.name := Some "Albon"%string; GrandPrix.series := Some 2 |};
               {| GrandPrix.name := Some "Rookie"%string; GrandPrix.series := None |} ] ]});
      ("components_brakes.json"%string,
        {[ "brakes"%string :=
             [ {| GrandPrix.name := Some "The Stabiliser"%string; GrandPrix.series := Some 3 |} ] ]});
      ("components_rearwing.json"%string,
        {[ "rear_wing"%string :=
             [ {| GrandPrix.name := Some "The Valkyrie"%string; GrandPrix.series := Some 8 |} ] ]}) ].

Definition slot_of (n : string) : GrandPrix.slot :=
  {| GrandPrix.slot_name := Some n |}.

(** A loadout of series 2 and 3 items, and an empty second driver slot. *)
Definition sample_gp_loadout : GrandPrix.loadout :=
  {| GrandPrix.drivers := Some [slot_of "Albon"; {| GrandPrix.slot_name := None |}];
     GrandPrix.components := Some [("brakes"%string, slot_of "The Stabiliser")] |}.

(** A loadout with speed 40 and total value 500 and no driver stats. *)
Definition sample_series_loadout : Series.loadout :=
  {| Series.id := 1;
     Series.title := "Speed build";
     Series.calcs :=
       Some {| Series.car_stats := Some {[ "speed"%string := 40%Q ]};
               Series.driver_stats := None;
               Series.total_value := Some 500%Q |} |}.

(** ** Further parts of the same files *)

(** The driver half of the raw data processor
    ([src/data/raw_data_processor.py], [process_driver_raw_data]). *)
Module DriverTable.

(** A CSV row of a driver: [Level] is [None] when the cell is NaN or does
    not convert, and the row is skipped; a stat is [None] when its cell is
    NaN or does not convert, and counts as 0. *)
Record row := {
  Level : option Z;
  Overtaking : option Z;
  Defending : option Z;
  Qualifying : option Z;
  Race_Start : option Z;
  Tyre_Mgmt : option Z
}.

(** The dictionary stored under [str(level)]. *)
Definition level_entry (lvl : Z) (r : row) : Drivers.level_stats :=
  let overtaking := default 0 (Overtaking r) in
  let defending := default 0 (Defending r) in
  let qualifying := default 0 (Qualifying r) in
  let race_start := default 0 (Race_Start r) in
  let tyre_mgmt := default 0 (Tyre_Mgmt r) in
  {| Drivers.level := lvl;
     Drivers.overtaking := overtaking;
     Drivers.defending := defending;
     Drivers.qualifying := qualifying;
     Drivers.race_start := race_start;
     Drivers.tyre_mgmt := tyre_mgmt;
     Drivers.total_value :=
       overtaking + defending + qualifying + race_start + tyre_mgmt |}.

(** [for _, row in driver_rarity_df.iterrows(): ...]. *)
Definition process_rows (rows : list row) : gmap Z Drivers.level_stats :=
  foldl (λ lv r, match Level r with
                 | Some lvl => <[lvl := level_entry lvl r]> lv
                 | None => lv
                 end) ∅ rows.

(** The raw data file as [process_driver_raw_data] writes it. *)
Definition written_by_processor (raw_data : gmap string Drivers.driver) : Prop :=
  ∀ k d, raw_data !! k = Some d → ∃ rows, Drivers.levels d = process_rows rows.

(** The sum stored as ["total_value"]. *)
Definition stats_sum (e : Drivers.level_stats) : Z :=
  Drivers.overtaking e + Drivers.defending e + Drivers.qualifying e
  + Drivers.race_start e + Drivers.tyre_mgmt e.

End DriverTable.

(** The explanation that goes with the eligibility check
    ([modules/grand_prix.py], [get_loadout_validation_message]). *)
Module Validation.
Import GrandPrix.

Local Open Scope string_scope.

Definition is_upper (c : ascii) : bool :=
  let n := nat_of_ascii c in ((65 <=? n) && (n <=? 90))%nat.

Definition is_lower (c : ascii) : bool :=
  let n := nat_of_ascii c in ((97 <=? n) && (n <=? 122))%nat.

Definition upper_ascii (c : ascii) : ascii :=
  if is_lower c then ascii_of_nat (nat_of_ascii c - 32) else c.

(** [s.title()] on ASCII text: a letter after an uncased character is put
    in upper case, a letter after a letter in lower case. *)
Fixpoint title_go (previous_is_cased : bool) (s : string) : string :=
  match s with
  | EmptyString => EmptyString
  | String c rest =>
      if is_lower c then
        String (if previous_is_cased then c else upper_ascii c)
          (title_go true rest)
      else if is_upper c then
        String (if previous_is_cased then lower_ascii c else c)
          (title_go true rest)
      else String c (title_go false rest)
  end.

Definition title (s : string) : string := title_go false s.

(** [f"Driver '{name}' is from Series {driver_series}"]. *)
Definition driver_line (n : string) (driver_series : Z) : string :=
  "Driver '" +:+ n +:+ "' is from Series " +:+ pretty driver_series.

(** [f"{comp_type.title()} '{name}' is from Series {comp_series}"]. *)
Definition component_line (comp_type n : string) (comp_series : Z) : string :=
  title comp_type +:+ " '" +:+ n +:+ "' is from Series " +:+ pretty comp_series.

(** The first loop: one line for every named driver above the ceiling. *)
Fixpoint invalid_drivers (series_of : string → Z) (max_series : Z)
    (slots : list slot) : list string :=
  match slots with
  | [] => []
  | s :: rest =>
      match named s with
      | Some n =>
          let driver_series := series_of n in
          if (max_series <? driver_series)%Z
          then driver_line n driver_series
                 :: invalid_drivers series_of max_series rest
          else invalid_drivers series_of max_series rest
      | None => invalid_drivers series_of max_series rest
      end
  end.

(** The second loop, over [loadout.get("components", {}).items()]. *)
Fixpoint invalid_components (series_of : string → Z) (max_series : Z)
    (slots : list (string * slot)) : list string :=
  match slots with
  | [] => []
  | (comp_type, s) :: rest =>
      match named s with
      | Some n =>
          let comp_series := series_of n in
          if (max_series <? comp_series)%Z
          then component_line comp_type n comp_series
                 :: invalid_components series_of max_series rest
          else invalid_components series_of max_series rest
      | None => invalid_components series_of max_series rest
      end
  end.

(** The list [invalid_items] when both loops are over. *)
Definition invalid_items (files : file_store) (l : loadout) (max_series : Z)
    : list string :=
  invalid_drivers (get_driver_series files) max_series (default [] (drivers l))
  ++ invalid_components (get_component_series files) max_series
       (default [] (components l)).

(** The separator of the list, a line feed and ["- "]. *)
Definition bullet : string := String "010"%char "- ".

Definition valid_message : string := "Loadout is valid for this category".

Definition get_loadout_validation_message (files : file_store) (l : loadout)
    (category : string) : string :=
  match GP_CATEGORIES !! category with
  | None => "Invalid category: " +:+ category
  | Some cat =>
      let max_series := max_series cat in
      match invalid_items files l max_series with
      | [] => valid_message
      | items =>
          "Loadout contains items above Series " +:+ pretty max_series
          +:+ ":" +:+ bullet +:+ String.concat bullet items
      end
  end.

End Validation.

(** Deleting a loadout in the view tab ([modules/loadouts.py],
    [manage_loadouts]). *)
Module LoadoutList.

(** [for i, ld in enumerate(loadouts, 1): ld['id'] = i]. *)
Definition renumber (loadouts : list Series.loadout) : list Series.loadout :=
  imap (λ i ld, {| Series.id := Z.of_nat i + 1;
                   Series.title := Series.title ld;
                   Series.calcs := Series.calcs ld |}) loadouts.

(** [loadouts.pop(selected_loadout_index)] and the renumbering; [None] is
    the [IndexError] of an index past the end. *)
Definition delete_loadout (selected_loadout_index : nat)
    (loadouts : list Series.loadout) : option (list Series.loadout) :=
  if decide (selected_loadout_index < length loadouts)%nat
  then Some (renumber (delete selected_loadout_index loadouts))
  else None.

End LoadoutList.

(** The list a component file contributes to [get_component_series]: the
    items under the key of its type, and nothing for a file that cannot be
    read or has no such key. *)
Module CatalogView.

Definition items_of (files : gmap string (gmap string (list GrandPrix.catalog_item)))
    (component_type file_path : string) : list GrandPrix.catalog_item :=
  match GrandPrix.load_json_data files file_path with
  | Some components_data =>
      default [] (components_data !! GrandPrix.type_key component_type)
  | None => []
  end.

End CatalogView.

Definition sample_driver_rows : list DriverTable.row :=
  [ {| DriverTable.Level := Some 2; DriverTable.Overtaking := Some 50;
       DriverTable.Defending := Some 55; DriverTable.Qualifying := Some 40;
       DriverTable.Race_Start := None; DriverTable.Tyre_Mgmt := Some 45 |};
    {| DriverTable.Level := None; DriverTable.Overtaking := Some 1;
       DriverTable.Defending := Some 1; DriverTable.Qualifying := Some 1;
       DriverTable.Race_Start := Some 1; DriverTable.Tyre_Mgmt := Some 1 |};
    {| DriverTable.Level := Some 5; DriverTable.Overtaking := Some 69;
       DriverTable.Defending := Some 74; DriverTable.Qualifying := Some 59;
       DriverTable.Race_Start := Some 54; DriverTable.Tyre_Mgmt := Some 64 |} ].

Definition processed_driver : gmap string Drivers.driver :=
  {[ "Bottas_Epic"%string :=
       {| Drivers.name := "Bottas";
          Drivers.rarity := "Epic";
          Drivers.series := 3;
          Drivers.levels := DriverTable.process_rows sample_driver_rows |} ]}.

(** A loadout with a series 7 driver and a series 8 rear wing. *)
Definition high_series_loadout : GrandPrix.loadout :=
  {| GrandPrix.drivers := Some [slot_of "Verstappen"; slot_of "Albon"];
     GrandPrix.components := Some [("rear_wing"%string, slot_of "The Valkyrie")] |}.

(** * Properties *)

(** ** Upgrade progress *)

Section UpgradeFacts.
Import Upgrade.

Lemma unknown_rarity_table (r : string) :
  r ∉ known_rarities → get_cards_per_level r = ∅.
Proof.
  intros Hr. unfold get_cards_per_level.
  repeat match goal with
  | |- context [String.eqb r ?s] =>
      destruct (String.eqb_spec r s) as [->|_];
      [exfalso; apply Hr; unfold known_rarities; set_solver|]
  end.
  reflexivity.
Qed.

Lemma cost_empty (l : Z) : cost ∅ l = 0.
Proof. unfold cost. by rewrite lookup_empty. Qed.

Lemma sum_costs_empty (levels : list Z) : sum_costs ∅ levels = 0.
Proof.
  unfold sum_costs. induction levels as [|l levels IH]; simpl; [done|].
  rewrite cost_empty. exact IH.
Qed.

Lemma sum_values_empty : sum_values ∅ = 0.
Proof. unfold sum_values. by rewrite map_to_list_empty. Qed.

Lemma last_cons_default {A} (x d : A) (l : list A) :
  List.last (x :: l) d = List.last l x.
Proof.
  revert x d. induction l as [|y l IH]; intros x d; [done|].
  change (List.last (x :: y :: l) d) with (List.last (y :: l) d).
  by rewrite (IH y d), (IH y x).
Qed.

(** With a table without costs, a non-negative balance pays for every
    level of the walk. *)
Lemma walk_levels_empty (levels : list Z) (cards_owned highest : Z) :
  0 ≤ cards_owned →
  walk_levels ∅ levels cards_owned highest = List.last levels highest.
Proof.
  revert cards_owned highest.
  induction levels as [|l levels IH]; intros cards_owned highest Hc; [done|].
  cbn [walk_levels]. rewrite cost_empty.
  destruct (Z.leb_spec 0 cards_owned) as [_|?]; [|lia].
  rewrite IH by lia. by rewrite last_cons_default.
Qed.

Lemma last_remaining_levels (l : Z) :
  1 ≤ l ≤ 11 → List.last (range (l + 1) 12) l = 11.
Proof.
  intros Hl.
  assert (l = 1 ∨ l = 2 ∨ l = 3 ∨ l = 4 ∨ l = 5 ∨ l = 6 ∨ l = 7 ∨ l = 8
          ∨ l = 9 ∨ l = 10 ∨ l = 11) as Hcases by lia.
  repeat destruct Hcases as [->|Hcases]; try subst l; reflexivity.
Qed.

End UpgradeFacts.

(** C1. The Common item at level 8 with 784 cards: level 9 costs 800 cards,
    more than the balance, so the walk stops at once and [highestLevel]
    stays 8; [totalCards] is 784 plus the costs of levels 2..8, that is
    1568. *)
Theorem common_level8_with_784_cards (n : string) :
  let it := Upgrade.update_item_upgrade_info (Upgrade.fresh_item n "Common" 8) 784 in
  Upgrade.highestLevel it = Some 8
  ∧ Upgrade.cost (Upgrade.get_cards_per_level "Common") 9 = 800
  ∧ Upgrade.totalCards <$> Upgrade.upgradeInfo it
    = Some (784 + Upgrade.sum_costs (Upgrade.get_cards_per_level "Common")
                    (Upgrade.range 2 9))
  ∧ Upgrade.totalCards <$> Upgrade.upgradeInfo it = Some 1568.
Proof. repeat split; vm_compute; reflexivity. Qed.

(** C8. An item of a rarity without a table, at a level from 1 to 11 and
    with a non-negative number of cards, comes back with [highestLevel] 11,
    [maxCards] 0 and [cardsNeeded] 0. *)
Theorem unknown_rarity_reaches_top (it : Upgrade.item) (cards_owned : Z) :
  Upgrade.rarity it ∉ Upgrade.known_rarities →
  1 ≤ Upgrade.level it ≤ 11 →
  0 ≤ cards_owned →
  let it' := Upgrade.update_item_upgrade_info it cards_owned in
  Upgrade.highestLevel it' = Some 11
  ∧ Upgrade.maxCards <$> Upgrade.upgradeInfo it' = Some 0
  ∧ Upgrade.cardsNeeded <$> Upgrade.upgradeInfo it' = Some 0.
Proof.
  intros Hr Hl Hc. cbn.
  unfold Upgrade.calculate_highest_level.
  rewrite (unknown_rarity_table _ Hr).
  destruct (Z.eqb_spec (Upgrade.level it) 0) as [?|_]; [lia|].
  rewrite walk_levels_empty, last_remaining_levels by assumption.
  by rewrite sum_values_empty, sum_costs_empty.
Qed.

Lemma unknown_rarity_reaches_top_witness :
  let it' := Upgrade.update_item_upgrade_info
               (Upgrade.fresh_item "Prototype" "Mythic" 3) 10 in
  Upgrade.highestLevel it' = Some 11
  ∧ Upgrade.maxCards <$> Upgrade.upgradeInfo it' = Some 0
  ∧ Upgrade.cardsNeeded <$> Upgrade.upgradeInfo it' = Some 0.
Proof.
  apply (unknown_rarity_reaches_top (Upgrade.fresh_item "Prototype" "Mythic" 3) 10).
  - compute_done.
  - cbn; lia.
  - lia.
Defined.

(** ** Raw level tables and interpolation *)

Section InterpFacts.
Import Interp.

Lemma StronglySorted_le_lt (l : list Z) :
  StronglySorted Z.le l → NoDup l → StronglySorted Z.lt l.
Proof.
  induction 1 as [|x l Hs IH Hall]; intros Hnd; constructor.
  - apply IH. by apply NoDup_cons in Hnd as [_ ?].
  - apply NoDup_cons in Hnd as [Hx _].
    rewrite Forall_forall in Hall |- *. intros y Hy.
    assert (x ≠ y) by (intros ->; by apply Hx).
    specialize (Hall y Hy). lia.
Qed.

Lemma sorted_level_numbers_sorted {A} (levels : gmap Z A) :
  StronglySorted Z.lt (sorted_level_numbers levels).
Proof.
  unfold sorted_level_numbers. apply StronglySorted_le_lt.
  - apply (StronglySorted_merge_sort Z.le); apply _.
  - rewrite merge_sort_Permutation. apply NoDup_fst_map_to_list.
Qed.

Lemma elem_of_sorted_level_numbers {A} (levels : gmap Z A) (l : Z) :
  l ∈ sorted_level_numbers levels ↔ is_Some (levels !! l).
Proof.
  unfold sorted_level_numbers. rewrite merge_sort_Permutation.
  rewrite list_elem_of_fmap. split.
  - intros [[k v] [-> Hkv]]. apply elem_of_map_to_list in Hkv. by exists v.
  - intros [v Hv]. exists (l, v). split; [done|].
    by apply elem_of_map_to_list.
Qed.

(** On strictly ascending level numbers the scan finds two neighbouring
    levels [a < level < b]: [a] as the lower one and [b] as the higher one. *)
Lemma scan_levels_between (level a b : Z) (ls : list Z) (lower : option Z) :
  StronglySorted Z.lt ls →
  a < level < b →
  b ∈ ls →
  (∀ x, x ∈ ls → x < b → x ≤ a) →
  (a ∈ ls ∨ (lower = Some a ∧ ∀ x, x ∈ ls → a < x)) →
  scan_levels level ls lower = (Some a, Some b).
Proof.
  intros Hs Hab. revert lower.
  induction Hs as [|x ls Hs IH Hall]; intros lower Hb Hgap Ha.
  { by apply elem_of_nil in Hb. }
  rewrite Forall_forall in Hall.
  cbn [scan_levels].
  destruct (Z.ltb_spec x level) as [Hx|Hx].
  - assert (x ≤ a) as Hxa by (apply Hgap; [left|lia]).
    apply IH.
    + apply elem_of_cons in Hb as [->|Hb]; [lia|done].
    + intros y Hy. apply Hgap. by right.
    + destruct Ha as [Ha|[_ Ha]].
      * apply elem_of_cons in Ha as [->|Ha]; [|by left].
        right. split; [done|]. intros y Hy. by apply Hall.
      * assert (a < x) by (apply Ha; left). lia.
  - destruct (Z.ltb_spec level x) as [Hx'|Hx'].
    + assert (x = b) as ->.
      { apply elem_of_cons in Hb as [->|Hb]; [done|].
        specialize (Hall b Hb).
        assert (x ≤ a) by (apply Hgap; [left|lia]). lia. }
      destruct Ha as [Ha|[-> _]]; [|done].
      apply elem_of_cons in Ha as [->|Ha]; [lia|].
      specialize (Hall a Ha). lia.
    + assert (x ≤ a) by (apply Hgap; [left|lia]). lia.
Qed.

(** The scan on a level table with two neighbouring sampled levels. *)
Lemma scan_sorted_level_numbers {A} (levels : gmap Z A) (level a b : Z) :
  is_Some (levels !! a) → is_Some (levels !! b) →
  a < level < b →
  (∀ l, a < l < b → levels !! l = None) →
  scan_levels level (sorted_level_numbers levels) None = (Some a, Some b).
Proof.
  intros Ha Hb Hab Hgap.
  apply scan_levels_between.
  - apply sorted_level_numbers_sorted.
  - done.
  - by apply elem_of_sorted_level_numbers.
  - intros x Hx Hxb. apply elem_of_sorted_level_numbers in Hx.
    destruct (Z_le_gt_dec x a) as [|Hgt]; [done|].
    rewrite (Hgap x) in Hx by lia. by destruct Hx.
  - left. by apply elem_of_sorted_level_numbers.
Qed.

Lemma factor_bounds (level a b : Z) :
  a < level < b → (0 <= factor level a b <= 1)%Q.
Proof.
  intros Hab. unfold factor.
  assert (0 < inject_Z (b - a))%Q as Hd.
  { change 0%Q with (inject_Z 0). rewrite <- Zlt_Qlt. lia. }
  split.
  - apply Qle_shift_div_l; [done|]. rewrite Qmult_0_l.
    change 0%Q with (inject_Z 0). rewrite <- Zle_Qle. lia.
  - apply Qle_shift_div_r; [done|]. rewrite Qmult_1_l.
    rewrite <- Zle_Qle. lia.
Qed.

Lemma lerp_bounds (f lo hi : Q) :
  (0 <= f <= 1)%Q → (lo <= hi)%Q → (lo <= lerp f lo hi <= hi)%Q.
Proof. intros [H0 H1] Hle. unfold lerp. split; nra. Qed.

Lemma py_round_lower (x : Q) (z : Z) :
  (inject_Z z <= x)%Q → z ≤ py_round x.
Proof.
  intros Hz. unfold py_round.
  assert (z ≤ Qfloor x).
  { rewrite <- (Qfloor_Z z). by apply Qfloor_resp_le. }
  destruct (x - inject_Z (Qfloor x) ?= 1 # 2)%Q; [destruct (Z.even _)|..]; lia.
Qed.

Lemma py_round_upper (x : Q) (z : Z) :
  (x <= inject_Z z)%Q → py_round x ≤ z.
Proof.
  intros Hz. unfold py_round.
  assert (Qfloor x ≤ z) as Hfl.
  { rewrite <- (Qfloor_Z z). by apply Qfloor_resp_le. }
  pose proof (Qfloor_le x) as Hle.
  assert ((1 # 2 <= x - inject_Z (Qfloor x))%Q → Qfloor x + 1 ≤ z) as Hup.
  { intros Hhalf.
    destruct (Z_lt_le_dec (Qfloor x) z) as [|Hge]; [lia|].
    assert (z = Qfloor x) as -> by lia. lra. }
  destruct (x - inject_Z (Qfloor x) ?= 1 # 2)%Q eqn:Hcmp.
  - apply Qeq_alt in Hcmp. destruct (Z.even _); [lia|].
    apply Hup. lra.
  - lia.
  - apply Qgt_alt in Hcmp. apply Hup. lra.
Qed.

End InterpFacts.

Section ComponentFacts.
Import Components.

(** Every entry that [process_rows] leaves in the table was built from a
    row. *)
Lemma process_rows_entry (rows : list row) (l : Z) (e : level_stats) :
  process_rows rows !! l = Some e → ∃ r, r ∈ rows ∧ e = level_entry r.
Proof.
  unfold process_rows.
  assert (∀ acc : gmap Z level_stats,
            (∀ l e, acc !! l = Some e → ∃ r, r ∈ rows ∧ e = level_entry r) →
            ∀ rs, rs ⊆ rows →
            foldl (λ lv r, <[Level r := level_entry r]> lv) acc rs !! l = Some e →
            ∃ r, r ∈ rows ∧ e = level_entry r) as Hgen.
  { intros acc Hacc rs. revert acc Hacc.
    induction rs as [|r rs IH]; intros acc Hacc Hsub; cbn [foldl].
    - apply Hacc.
    - apply IH; [|set_solver].
      intros l' e'. destruct (decide (Level r = l')) as [<-|Hne].
      + rewrite lookup_insert_eq. intros [= <-]. exists r. split; [set_solver|done].
      + rewrite lookup_insert_ne by done. apply Hacc. }
  apply Hgen; [|done]. intros l' e'. by rewrite lookup_empty.
Qed.

Lemma level_entry_total (r : row) :
  total_value (level_entry r) = Components.stats_sum (level_entry r).
Proof. reflexivity. Qed.

Lemma stored_entry_total (raw_data : gmap string component) (n : string)
    (c : component) (l : Z) (e : level_stats) :
  Components.written_by_processor raw_data →
  raw_data !! n = Some c → levels c !! l = Some e →
  total_value e = Components.stats_sum e.
Proof.
  intros Hw Hc He. destruct (Hw n c Hc) as [rows Hrows].
  rewrite Hrows in He. apply process_rows_entry in He as (r & _ & ->).
  apply level_entry_total.
Qed.

Lemma component_interpolation_between (raw_data : gmap string component)
    (n : string) (c : component) (a b lvl : Z) (ea eb : level_stats) :
  raw_data !! n = Some c →
  levels c !! a = Some ea → levels c !! b = Some eb →
  a < lvl < b →
  (∀ l, a < l < b → levels c !! l = None) →
  get_component_stats raw_data n lvl true
  = Some (interpolated_stats lvl (Interp.factor lvl a b) ea eb).
Proof.
  intros Hc Ha Hb Hab Hgap. unfold get_component_stats.
  rewrite Hc. cbn zeta. rewrite (Hgap lvl Hab).
  rewrite (scan_sorted_level_numbers (levels c) lvl a b) by eauto.
  by rewrite Ha, Hb.
Qed.

End ComponentFacts.

Section DriverFacts.
Import Drivers.

Lemma driver_interpolation_between (raw_data : gmap string driver)
    (n r : string) (d : driver) (a b lvl : Z) (ea eb : level_stats) :
  raw_data !! (n +:+ "_" +:+ r)%string = Some d →
  levels d !! a = Some ea → levels d !! b = Some eb →
  a < lvl < b →
  (∀ l, a < l < b → levels d !! l = None) →
  get_driver_stats raw_data n r lvl true
  = Some (interpolated_stats lvl (Interp.factor lvl a b) ea eb).
Proof.
  intros Hd Ha Hb Hab Hgap. unfold get_driver_stats.
  cbn zeta. rewrite Hd. rewrite (Hgap lvl Hab).
  rewrite (scan_sorted_level_numbers (levels d) lvl a b) by eauto.
  by rewrite Ha, Hb.
Qed.

Lemma interp_bounds (f : Q) (lo hi : Z) :
  (0 <= f <= 1)%Q → lo ≤ hi → lo ≤ interp f lo hi ≤ hi.
Proof.
  intros Hf Hle. unfold interp.
  assert (inject_Z lo <= inject_Z hi)%Q as Hq by (by rewrite <- Zle_Qle).
  destruct (lerp_bounds f _ _ Hf Hq) as [H1 H2].
  split; [by apply py_round_lower|by apply py_round_upper].
Qed.

End DriverFacts.


(** C2, as the code has it. Every stat bundle of a component has as its
    [total_value] the sum of all five of its stats, [pit_time] included:
    the entry stored for a row, and every bundle [get_component_stats]
    returns from a raw data file written by the processor. *)
Theorem component_total_value_sums_all_stats
    (raw_data : gmap string Components.component) (n : string) (lvl : Z)
    (interpolate : bool) (b : Components.level_stats) :
  Components.written_by_processor raw_data →
  Components.get_component_stats raw_data n lvl interpolate = Some b →
  (∀ r, Components.total_value (Components.level_entry r)
        = Components.stats_sum (Components.level_entry r))
  ∧ Components.total_value b = Components.stats_sum b.
Proof.
  intros Hw Hget. split; [apply level_entry_total|].
  unfold Components.get_component_stats in Hget.
  destruct (raw_data !! n) as [c|] eqn:Hc; [|done]. cbn zeta in Hget.
  destruct (Components.levels c !! lvl) as [e|] eqn:He.
  { injection Hget as <-. by eapply stored_entry_total. }
  destruct interpolate; [|done].
  destruct (Interp.scan_levels _ _ _) as [[lo|] [hi|]].
  - destruct (Components.levels c !! lo) as [el|]; [|done].
    destruct (Components.levels c !! hi) as [eh|]; [|done].
    by injection Hget as <-.
  - by eapply stored_entry_total.
  - by eapply stored_entry_total.
  - done.
Qed.

Lemma sample_component_written (rows : list Components.row) :
  Components.written_by_processor (sample_component rows).
Proof.
  intros n c Hc. exists rows. unfold sample_component in Hc.
  apply lookup_singleton_Some in Hc as [_ <-]. reflexivity.
Qed.

Lemma component_total_value_sums_all_stats_witness :
  ∃ b, Components.get_component_stats two_samples "Sample" 7 true = Some b
       ∧ Components.total_value b = Components.stats_sum b.
Proof.
  eexists. split; [vm_compute; reflexivity|].
  eapply (component_total_value_sums_all_stats two_samples "Sample" 7 true).
  - apply sample_component_written.
  - vm_compute; reflexivity.
Defined.

(** C2, as stated, fails on the Stabiliser at level 8: its stored total is
    32.77, the four value stats add up to 32. *)
Lemma stabiliser_total_counts_pit_time :
  let e := Components.level_entry stabiliser_row in
  (Components.total_value e == 32.77)%Q
  ∧ ¬ (Components.total_value e
       == Components.speed e + Components.cornering e
          + Components.power_unit e + Components.qualifying e)%Q.
Proof. split; [reflexivity|]. vm_compute. discriminate. Qed.

(** C7, for neighbouring samples. When [a < b] are sampled levels with no
    sampled level between them, the bundle returned at a level strictly
    between them has every stat whose samples satisfy [sa <= sb] inside
    [[sa, sb]]: as a rational for a component, after [round] for a driver. *)
Theorem interpolation_between_neighbours :
  (∀ (raw_data : gmap string Components.component) (n : string)
     (c : Components.component) (a b lvl : Z) (ea eb : Components.level_stats),
     raw_data !! n = Some c →
     Components.levels c !! a = Some ea →
     Components.levels c !! b = Some eb →
     a < lvl < b →
     (∀ l, a < l < b → Components.levels c !! l = None) →
     ∃ r, Components.get_component_stats raw_data n lvl true = Some r
       ∧ ∀ stat, stat ∈ [Components.speed; Components.cornering;
                         Components.power_unit; Components.qualifying;
                         Components.pit_time] →
           (stat ea <= stat eb → stat ea <= stat r <= stat eb)%Q)
  ∧
  (∀ (raw_data : gmap string Drivers.driver) (n rarity : string)
     (d : Drivers.driver) (a b lvl : Z) (ea eb : Drivers.level_stats),
     raw_data !! (n +:+ "_" +:+ rarity)%string = Some d →
     Drivers.levels d !! a = Some ea →
     Drivers.levels d !! b = Some eb →
     a < lvl < b →
     (∀ l, a < l < b → Drivers.levels d !! l = None) →
     ∃ r, Drivers.get_driver_stats raw_data n rarity lvl true = Some r
       ∧ ∀ stat, stat ∈ [Drivers.overtaking; Drivers.defending;
                         Drivers.qualifying; Drivers.race_start;
                         Drivers.tyre_mgmt] →
           stat ea ≤ stat eb → stat ea ≤ stat r ≤ stat eb).
Proof.
  split.
  - intros raw_data n c a b lvl ea eb Hc Ha Hb Hab Hgap.
    eexists. split.
    { by apply (component_interpolation_between raw_data n c a b lvl ea eb). }
    pose proof (factor_bounds lvl a b Hab) as Hf.
    intros stat Hstat Hle.
    repeat (apply elem_of_cons in Hstat as [->|Hstat];
            [by apply lerp_bounds|]).
    by apply elem_of_nil in Hstat.
  - intros raw_data n rarity d a b lvl ea eb Hd Ha Hb Hab Hgap.
    eexists. split.
    { by apply (driver_interpolation_between raw_data n rarity d a b lvl ea eb). }
    pose proof (factor_bounds lvl a b Hab) as Hf.
    intros stat Hstat Hle.
    repeat (apply elem_of_cons in Hstat as [->|Hstat];
            [by apply interp_bounds|]).
    by apply elem_of_nil in Hstat.
Qed.

Lemma interpolation_between_neighbours_witness :
  (∃ r, Components.get_component_stats two_samples "Sample" 7 true = Some r
        ∧ (10 <= Components.speed r <= 20)%Q)
  ∧ (∃ r, Drivers.get_driver_stats sample_driver "Bottas" "Epic" 3 true = Some r
          ∧ 50 ≤ Drivers.overtaking r ≤ 69).
Proof.
  split.
  - destruct (proj1 interpolation_between_neighbours two_samples "Sample"
                {| Components.name := "Sample";
                   Components.type := "Brakes";
                   Components.rarity := "Common";
                   Components.series := 1;
                   Components.levels :=
                     Components.process_rows [speed_row 5 10; speed_row 9 20] |}
                5 9 7
                (Components.level_entry (speed_row 5 10))
                (Components.level_entry (speed_row 9 20)))
      as (r & Hr & Hstat).
    + vm_compute; reflexivity.
    + vm_compute; reflexivity.
    + vm_compute; reflexivity.
    + lia.
    + intros l Hl. assert (l = 6 ∨ l = 7 ∨ l = 8) as [->|[->| ->]] by lia;
        vm_compute; reflexivity.
    + exists r. split; [exact Hr|].
      apply (Hstat Components.speed); [left|].
      vm_compute. discriminate.
  - destruct (proj2 interpolation_between_neighbours sample_driver
                "Bottas" "Epic"
                {| Drivers.name := "Bottas";
                   Drivers.rarity := "Epic";
                   Drivers.series := 3;
                   Drivers.levels :=
                     {[ 2 := driver_entry 2 50; 5 := driver_entry 5 69 ]} |}
                2 5 3 (driver_entry 2 50) (driver_entry 5 69))
      as (r & Hr & Hstat).
    + vm_compute; reflexivity.
    + vm_compute; reflexivity.
    + vm_compute; reflexivity.
    + lia.
    + intros l Hl. assert (l = 3 ∨ l = 4) as [->| ->] by lia;
        vm_compute; reflexivity.
    + exists r. split; [exact Hr|].
      apply (Hstat Drivers.overtaking); [left|].
      vm_compute. discriminate.
Defined.

(** C7, as stated, fails when [a] and [b] are not neighbours: with samples
    at levels 1, 3 and 7 of speed 10, 100 and 20, level 5 lies strictly
    between the sampled levels 1 and 7, whose speeds are 10 <= 20, and the
    interpolator answers 60, from the samples at levels 3 and 7. *)
Lemma interpolation_between_distant_samples :
  let c := {| Components.name := "Sample";
              Components.type := "Brakes";
              Components.rarity := "Common";
              Components.series := 1;
              Components.levels :=
                Components.process_rows
                  [speed_row 1 10; speed_row 3 100; speed_row 7 20] |} in
  ∃ ea eb r,
    three_samples !! "Sample"%string = Some c
    ∧ Components.levels c !! 1 = Some ea
    ∧ Components.levels c !! 7 = Some eb
    ∧ (Components.speed ea <= Components.speed eb)%Q
    ∧ 1 < 5 < 7
    ∧ Components.get_component_stats three_samples "Sample" 5 true = Some r
    ∧ (Components.speed r == 60)%Q
    ∧ ¬ (Components.speed ea <= Components.speed r <= Components.speed eb)%Q.
Proof.
  eexists _, _, _.
  split; [vm_compute; reflexivity|].
  split; [vm_compute; reflexivity|].
  split; [vm_compute; reflexivity|].
  split; [vm_compute; discriminate|].
  split; [lia|].
  split; [vm_compute; reflexivity|].
  split; [vm_compute; reflexivity|].
  intros [_ H]. vm_compute in H. by apply H.
Qed.

(** ** Grand Prix eligibility *)

Section GrandPrixFacts.
Import GrandPrix.

Lemma find_series_absent (n : string) (items : list catalog_item) :
  Forall (λ item, name item ≠ Some n) items → find_series n items = None.
Proof.
  induction 1 as [|item items Hne _ IH]; [done|].
  cbn [find_series]. by rewrite bool_decide_eq_false_2.
Qed.

Lemma absent_items (files : file_store) (n : string) (file_path key : string)
    (doc : document) :
  absent files n → files !! file_path = Some doc →
  find_series n (default [] (doc !! key)) = None.
Proof.
  intros Habs Hdoc. specialize (Habs file_path doc Hdoc). cbn in Habs.
  destruct (doc !! key) as [items|] eqn:Hitems; [|done].
  apply find_series_absent. exact (Habs key items Hitems).
Qed.

Lemma get_driver_series_absent (files : file_store) (n : string) :
  absent files n → get_driver_series files n = 0.
Proof.
  intros Habs. unfold get_driver_series, load_json_data.
  destruct (files !! DRIVERS_FILE) as [doc|] eqn:Hdoc; [|done].
  case_bool_decide; [|done].
  by rewrite (absent_items files n DRIVERS_FILE "drivers" doc).
Qed.

Lemma component_series_in_absent (files : file_store) (n : string)
    (component_files : list (string * string)) :
  absent files n → component_series_in files n component_files = 0.
Proof.
  intros Habs. induction component_files as [|[ty fp] rest IH]; [done|].
  cbn [component_series_in]. unfold load_json_data.
  destruct (files !! fp) as [doc|] eqn:Hdoc; [|done].
  case_bool_decide; [|done].
  by rewrite (absent_items files n fp (type_key ty) doc).
Qed.

Lemma get_component_series_absent (files : file_store) (n : string) :
  absent files n → get_component_series files n = 0.
Proof. apply component_series_in_absent. Qed.

Lemma category_ceiling_nonneg (category : string) (cat : GrandPrix.category) :
  GP_CATEGORIES !! category = Some cat → 0 ≤ max_series cat.
Proof.
  unfold GP_CATEGORIES. cbn [list_to_map foldr fst snd uncurry].
  intros H.
  repeat (apply lookup_insert_Some in H as [[_ <-]|[_ H]]; [cbn; lia|]).
  by rewrite lookup_empty in H.
Qed.

Lemma within_ceiling_app (series_of : string → Z) (m : Z) (l1 l2 : list slot) :
  within_ceiling series_of m (l1 ++ l2)
  = within_ceiling series_of m l1 && within_ceiling series_of m l2.
Proof.
  induction l1 as [|s l1 IH]; [done|]. cbn [app within_ceiling].
  destruct (named s); [destruct (_ <? _)|]; done.
Qed.

(** A slot whose item is of series 0 passes under every non-negative
    ceiling, so it can be left out. *)
Lemma within_ceiling_skip (series_of : string → Z) (m : Z) (n : string)
    (s : slot) (l1 l2 : list slot) :
  0 ≤ m → named s = Some n → series_of n = 0 →
  within_ceiling series_of m (l1 ++ s :: l2)
  = within_ceiling series_of m (l1 ++ l2).
Proof.
  intros Hm Hs H0. rewrite !within_ceiling_app. f_equal.
  cbn [within_ceiling]. rewrite Hs, H0.
  by destruct (Z.ltb_spec m 0); [lia|].
Qed.

Lemma within_ceiling_mono (series_of : string → Z) (m1 m2 : Z) (l : list slot) :
  m1 ≤ m2 →
  within_ceiling series_of m1 l = true → within_ceiling series_of m2 l = true.
Proof.
  intros Hm. induction l as [|s l IH]; [done|]. cbn [within_ceiling].
  destruct (named s) as [n|]; [|done].
  destruct (Z.ltb_spec m1 (series_of n)); [done|].
  destruct (Z.ltb_spec m2 (series_of n)); [lia|done].
Qed.

End GrandPrixFacts.

(** C6. A loadout that is valid for a category is valid for every category
    whose ceiling is at least as high, on the same catalog files. *)
Theorem eligibility_monotone (files : gmap string (gmap string (list GrandPrix.catalog_item)))
    (l : GrandPrix.loadout) (c1 c2 : string) (cat1 cat2 : GrandPrix.category) :
  GrandPrix.GP_CATEGORIES !! c1 = Some cat1 →
  GrandPrix.GP_CATEGORIES !! c2 = Some cat2 →
  GrandPrix.max_series cat1 ≤ GrandPrix.max_series cat2 →
  GrandPrix.is_loadout_valid_for_category files l c1 = true →
  GrandPrix.is_loadout_valid_for_category files l c2 = true.
Proof.
  intros H1 H2 Hle. unfold GrandPrix.is_loadout_valid_for_category.
  rewrite H1, H2. cbn zeta.
  destruct (GrandPrix.within_ceiling (GrandPrix.get_driver_series files)
              (GrandPrix.max_series cat1) _) eqn:Hd; [|done].
  intros Hc.
  rewrite (within_ceiling_mono _ _ _ _ Hle Hd).
  exact (within_ceiling_mono _ _ _ _ Hle Hc).
Qed.

Lemma eligibility_monotone_witness :
  GrandPrix.is_loadout_valid_for_category sample_files sample_gp_loadout
    "Contender" = true.
Proof.
  apply (eligibility_monotone sample_files sample_gp_loadout
           "Challenger" "Contender"
           {| GrandPrix.max_series := 6;
              GrandPrix.description :=
                "Components and drivers from series 6 and below" |}
           {| GrandPrix.max_series := 9;
              GrandPrix.description :=
                "Components and drivers from series 9 and below" |}).
  - vm_compute; reflexivity.
  - vm_compute; reflexivity.
  - cbn; lia.
  - vm_compute; reflexivity.
Defined.

(** C9. A name that appears in no catalog document has series 0 as a
    driver and as a component, and every category ceiling is at least 0:
    taking a slot with such a name out of the drivers or out of the
    components of a loadout leaves the verdict of
    [is_loadout_valid_for_category] as it was, for every category. *)
Theorem absent_name_never_disqualifies
    (files : gmap string (gmap string (list GrandPrix.catalog_item))) (n : string) :
  GrandPrix.absent files n →
  GrandPrix.get_driver_series files n = 0
  ∧ GrandPrix.get_component_series files n = 0
  ∧ (∀ category cat, GrandPrix.GP_CATEGORIES !! category = Some cat →
       0 ≤ GrandPrix.max_series cat)
  ∧ ∀ (category : string) (s : GrandPrix.slot) (l : GrandPrix.loadout),
      GrandPrix.named s = Some n →
      (∀ ds1 ds2, GrandPrix.drivers l = Some (ds1 ++ s :: ds2) →
         GrandPrix.is_loadout_valid_for_category files l category
         = GrandPrix.is_loadout_valid_for_category files
             {| GrandPrix.drivers := Some (ds1 ++ ds2);
                GrandPrix.components := GrandPrix.components l |} category)
      ∧ (∀ ty cs1 cs2, GrandPrix.components l = Some (cs1 ++ (ty, s) :: cs2) →
         GrandPrix.is_loadout_valid_for_category files l category
         = GrandPrix.is_loadout_valid_for_category files
             {| GrandPrix.drivers := GrandPrix.drivers l;
                GrandPrix.components := Some (cs1 ++ cs2) |} category).
Proof.
  intros Habs.
  pose proof (get_driver_series_absent files n Habs) as Hd.
  pose proof (get_component_series_absent files n Habs) as Hc.
  split; [done|]. split; [done|].
  split; [apply category_ceiling_nonneg|].
  intros category s l Hs.
  unfold GrandPrix.is_loadout_valid_for_category.
  destruct (GrandPrix.GP_CATEGORIES !! category) as [cat|] eqn:Hcat; [|done].
  pose proof (category_ceiling_nonneg category cat Hcat) as Hm.
  cbn zeta. split.
  - intros ds1 ds2 ->. cbn [GrandPrix.drivers GrandPrix.components from_option id].
    by rewrite (within_ceiling_skip _ _ n s ds1 ds2 Hm Hs Hd).
  - intros ty cs1 cs2 ->. cbn [GrandPrix.drivers GrandPrix.components from_option id].
    rewrite !fmap_app, fmap_cons. cbn [snd].
    by rewrite (within_ceiling_skip _ _ n s _ _ Hm Hs Hc).
Qed.

Lemma nobody_absent : GrandPrix.absent sample_files "Nobody".
Proof. unfold GrandPrix.absent. compute_done. Defined.

Lemma absent_name_never_disqualifies_witness :
  GrandPrix.absent sample_files "Nobody"
  ∧ GrandPrix.get_driver_series sample_files "Nobody" = 0
  ∧ GrandPrix.get_component_series sample_files "Nobody" = 0
  ∧ GrandPrix.is_loadout_valid_for_category sample_files
      {| GrandPrix.drivers := Some [slot_of "Verstappen"; slot_of "Nobody"];
         GrandPrix.components := None |} "Challenger"
    = GrandPrix.is_loadout_valid_for_category sample_files
      {| GrandPrix.drivers := Some [slot_of "Verstappen"];
         GrandPrix.components := None |} "Challenger".
Proof.
  split; [exact nobody_absent|].
  destruct (absent_name_never_disqualifies sample_files "Nobody" nobody_absent)
    as (Hd & Hc & _ & Hskip).
  split; [exact Hd|]. split; [exact Hc|].
  exact (proj1 (Hskip "Challenger"%string (slot_of "Nobody")
                  {| GrandPrix.drivers := Some [slot_of "Verstappen"; slot_of "Nobody"];
                     GrandPrix.components := None |} eq_refl)
           [slot_of "Verstappen"] [] eq_refl).
Defined.

(** C4, as the code has it. A rarity outside the four gets the empty cost
    table, in which every level costs 0 cards, and a name that appears in
    no catalog document gets series 0 from both series lookups. *)
Theorem unknown_inputs_get_defaults (r : string)
    (files : gmap string (gmap string (list GrandPrix.catalog_item))) (n : string) :
  r ∉ Upgrade.known_rarities →
  GrandPrix.absent files n →
  Upgrade.get_cards_per_level r = ∅
  ∧ (∀ l, Upgrade.cost (Upgrade.get_cards_per_level r) l = 0)
  ∧ GrandPrix.get_driver_series files n = 0
  ∧ GrandPrix.get_component_series files n = 0.
Proof.
  intros Hr Habs. rewrite (unknown_rarity_table r Hr).
  split; [done|]. split; [apply cost_empty|].
  split; [by apply get_driver_series_absent|by apply get_component_series_absent].
Qed.

Lemma mythic_unknown : "Mythic"%string ∉ Upgrade.known_rarities.
Proof. compute_done. Defined.

Lemma unknown_inputs_get_defaults_witness :
  Upgrade.get_cards_per_level "Mythic" = ∅
  ∧ (∀ l, Upgrade.cost (Upgrade.get_cards_per_level "Mythic") l = 0)
  ∧ GrandPrix.get_driver_series sample_files "Nobody" = 0
  ∧ GrandPrix.get_component_series sample_files "Nobody" = 0.
Proof.
  exact (unknown_inputs_get_defaults "Mythic" sample_files "Nobody"
           mythic_unknown nobody_absent).
Defined.

(** C4, as stated, fails: for the rarity ["Mythic"] the lookup answers with
    the empty table and the calculator goes on to level 11 with it, and for
    the name ["Nobody"] the series lookups answer 0, which is also the
    answer for ["Rookie"], a driver the catalog does hold. *)
Lemma unknown_inputs_are_not_flagged :
  ("Mythic"%string ∉ Upgrade.known_rarities)
  ∧ GrandPrix.absent sample_files "Nobody"
  ∧ ¬ (Upgrade.get_cards_per_level "Mythic" ≠ ∅)
  ∧ Upgrade.highestLevel
      (Upgrade.update_item_upgrade_info (Upgrade.fresh_item "Prototype" "Mythic" 3) 10)
    = Some 11
  ∧ ¬ (GrandPrix.get_driver_series sample_files "Nobody" ≠ 0)
  ∧ ¬ (GrandPrix.get_component_series sample_files "Nobody" ≠ 0)
  ∧ GrandPrix.get_driver_series sample_files "Nobody"
    = GrandPrix.get_driver_series sample_files "Rookie".
Proof.
  split; [exact mythic_unknown|]. split; [exact nobody_absent|].
  split; [intros H; by apply H|].
  split; [vm_compute; reflexivity|].
  split; [intros H; apply H; vm_compute; reflexivity|].
  split; [intros H; apply H; vm_compute; reflexivity|].
  vm_compute; reflexivity.
Qed.

(** ** Series matching *)

Section SortFacts.
Import Series.
Context {A : Type} (key : A → Q).

Lemma insert_desc_perm (x : A) (l : list A) : insert_desc key x l ≡ₚ x :: l.
Proof.
  induction l as [|y l IH]; [done|]. cbn [insert_desc].
  destruct (Qle_bool (key y) (key x)); [done|].
  rewrite IH. apply Permutation_swap.
Qed.

Lemma sort_desc_perm (l : list A) : sort_desc key l ≡ₚ l.
Proof.
  unfold sort_desc. induction l as [|x l IH]; [done|].
  cbn [foldr]. rewrite insert_desc_perm. by f_equiv.
Qed.

Lemma insert_desc_sorted (x : A) (l : list A) :
  StronglySorted (λ a b, (key b <= key a)%Q) l →
  StronglySorted (λ a b, (key b <= key a)%Q) (insert_desc key x l).
Proof.
  induction 1 as [|y l Hs IH Hall]; cbn [insert_desc].
  { repeat constructor. }
  destruct (Qle_bool (key y) (key x)) eqn:Hle.
  - apply Qle_bool_iff in Hle. constructor; [by constructor|].
    constructor; [done|].
    eapply Forall_impl; [exact Hall|]. intros z Hz. cbn in *.
    by apply Qle_trans with (key y).
  - constructor; [done|].
    assert (key x <= key y)%Q as Hxy.
    { destruct (Qlt_le_dec (key x) (key y)) as [Hlt|Hge].
      - by apply Qlt_le_weak.
      - apply Qle_bool_iff in Hge. congruence. }
    rewrite (insert_desc_perm x l). by constructor.
Qed.

Lemma sort_desc_sorted (l : list A) :
  StronglySorted (λ a b, (key b <= key a)%Q) (sort_desc key l).
Proof.
  unfold sort_desc. induction l as [|x l IH]; [constructor|].
  cbn [foldr]. by apply insert_desc_sorted.
Qed.

End SortFacts.

Section ScoreFacts.
Import Series.

Lemma resolve_fixed_label (rot : option (gmap string string)) (num : Z)
    (label : string) :
  label ≠ "Rotating"%string → resolve_track_stats rot num label = label.
Proof.
  intros Hne. unfold resolve_track_stats.
  by destruct (String.eqb_spec label "Rotating").
Qed.

Lemma resolve_without_override (rot : option (gmap string string)) (num : Z) :
  no_override rot num → resolve_track_stats rot num "Rotating" = "Rotating"%string.
Proof.
  unfold no_override, resolve_track_stats. cbn.
  destruct rot as [attrs|]; [|done]. by intros ->.
Qed.

Lemma rotating_unmapped : TRACK_STATS_TO_ATTRIBUTES !! "Rotating"%string = None.
Proof. reflexivity. Qed.

Lemma focus_of_unmapped (label : string) :
  TRACK_STATS_TO_ATTRIBUTES !! label = None → focus_of label = "speed"%string.
Proof. unfold focus_of. by intros ->. Qed.

Lemma Qlt_bool_true (x y : Q) : Qlt_bool x y = true ↔ (x < y)%Q.
Proof.
  unfold Qlt_bool. rewrite negb_true_iff. split.
  - intros H. apply Qnot_le_lt. intros Hle. apply Qle_bool_iff in Hle. congruence.
  - intros H. destruct (Qle_bool y x) eqn:Hle; [|done].
    apply Qle_bool_iff in Hle. by apply Qlt_not_le in H.
Qed.

Lemma Qlt_bool_false_iff (x y : Q) : Qlt_bool x y = false ↔ (y <= x)%Q.
Proof.
  unfold Qlt_bool. rewrite negb_false_iff. apply Qle_bool_iff.
Qed.

(** The range check gives a score exactly when both bounds can be read. *)
Lemma apply_ts_range_Some (ts : string) (tv score r : Q) :
  apply_ts_range ts tv score = Some r
  ↔ ∃ lo hi, min_ts (Text.split_ts ts) = Some lo
             ∧ max_ts (Text.split_ts ts) = Some hi
             ∧ r = range_penalty lo hi tv score.
Proof.
  unfold apply_ts_range. cbn zeta. split.
  - intros H. apply bind_Some in H as (lo & Hlo & H).
    apply bind_Some in H as (hi & Hhi & [= <-]). by exists lo, hi.
  - intros (lo & hi & -> & -> & ->). reflexivity.
Qed.

Lemma apply_ts_range_is_Some (ts : string) (tv score : Q) :
  is_Some (apply_ts_range ts tv score) ↔ ts_converts ts.
Proof.
  unfold ts_converts. split.
  - intros [r (lo & hi & -> & -> & _)%apply_ts_range_Some]. by split; eexists.
  - intros [[lo Hlo] [hi Hhi]]. eexists. apply apply_ts_range_Some. eauto.
Qed.

(** Every score is the range check of a value that the range has no part
    in. *)
Lemma series_score_apply (f : string) (cs ds : gmap string Q) (ts : string) :
  ∃ base : Q, ∀ tv,
    series_score f cs ds tv ts = apply_ts_range ts tv (base + tv * 0.1)%Q.
Proof. unfold series_score. cbn zeta. eexists. intros tv. reflexivity. Qed.

Lemma series_score_is_Some (f : string) (cs ds : gmap string Q) (tv : Q)
    (ts : string) :
  is_Some (series_score f cs ds tv ts) ↔ ts_converts ts.
Proof.
  destruct (series_score_apply f cs ds ts) as [base ->].
  apply apply_ts_range_is_Some.
Qed.

(** Scoring with the focus attribute ["speed"]: twice the car's speed plus
    a tenth of the total value, then the range check. *)
Lemma series_score_speed (cs ds : gmap string Q) (tv : Q) (ts : string) :
  series_score "speed" cs ds tv ts
  = apply_ts_range ts tv (0 + get cs "speed" 0 * 2 + tv * 0.1)%Q.
Proof. reflexivity. Qed.

Lemma loadout_score_speed (ts : string) (l : loadout) :
  loadout_score "speed" ts l
  = apply_ts_range ts (total_value_of l)
      (0 + get (car_stats_of l) "speed" 0 * 2 + total_value_of l * 0.1)%Q.
Proof. reflexivity. Qed.

Lemma range_penalty_on_speed (cs : gmap string Q) (tv : Q) (lo hi : Z) :
  scored_on_speed cs tv lo hi
    (range_penalty lo hi tv (0 + get cs "speed" 0 * 2 + tv * 0.1)%Q).
Proof.
  unfold scored_on_speed, range_penalty. cbn zeta.
  destruct (Qlt_bool tv (inject_Z lo)) eqn:Hlo;
    [apply Qlt_bool_true in Hlo|apply Qlt_bool_false_iff in Hlo].
  { repeat split; intros; lra. }
  destruct (Qlt_bool (inject_Z hi) tv) eqn:Hhi;
    [apply Qlt_bool_true in Hhi|apply Qlt_bool_false_iff in Hhi];
    repeat split; intros; lra.
Qed.

Lemma range_penalty_inside (lo hi : Z) (tv score : Q) :
  (inject_Z lo <= tv)%Q → (tv <= inject_Z hi)%Q →
  range_penalty lo hi tv score = score.
Proof.
  intros Hlo Hhi. unfold range_penalty.
  apply Qlt_bool_false_iff in Hlo, Hhi. by rewrite Hlo, Hhi.
Qed.

(** What an entry of the ranking is made of. *)
Lemma entry_for_Some (rot : option (gmap string string)) (l : loadout)
    (si : series_info) (e : series_entry) :
  entry_for rot l si = Some e
  ↔ e_series e = series si
    ∧ e_track_stats e = resolve_track_stats rot (series si) (track_stats si)
    ∧ series_score
        (focus_of (resolve_track_stats rot (series si) (track_stats si)))
        (car_stats_of l) (driver_stats_of l) (total_value_of l)
        (recommended_ts si) = Some (e_score e).
Proof.
  unfold entry_for. cbn zeta. split.
  - intros H. apply bind_Some in H as (score & Hscore & [= <-]). done.
  - intros (H1 & H2 & ->). cbn. destruct e; cbn in *. by subst.
Qed.

Lemma entry_for_is_Some (rot : option (gmap string string)) (l : loadout)
    (si : series_info) :
  is_Some (entry_for rot l si) ↔ ts_converts (recommended_ts si).
Proof.
  rewrite <- (series_score_is_Some
                (focus_of (resolve_track_stats rot (series si) (track_stats si)))
                (car_stats_of l) (driver_stats_of l) (total_value_of l)).
  unfold entry_for. cbn zeta.
  destruct (series_score _ _ _ _ _) as [score|]; cbn.
  - split; intros _; by eexists.
  - split; intros [? [=]].
Qed.

(** The matcher returns the first five of the sorted scores, when there
    are scores. *)
Lemma find_matching_Some (SERIES_DATA : list series_info)
    (rot : option (gmap string string)) (l : loadout)
    (result : list series_entry) :
  find_matching_series_for_loadout SERIES_DATA rot l = Some result
  ↔ ∃ scores, series_scores SERIES_DATA rot l = Some scores
              ∧ result = take 5 (sort_desc e_score scores).
Proof.
  unfold find_matching_series_for_loadout. split.
  - intros H. apply bind_Some in H as (scores & Hs & [= <-]). eauto.
  - intros (scores & -> & ->). reflexivity.
Qed.

Lemma Forall2_elem_of_l {A B} (P : A → B → Prop) (xs : list A) (ys : list B)
    (x : A) :
  Forall2 P xs ys → x ∈ xs → ∃ y, y ∈ ys ∧ P x y.
Proof.
  induction 1 as [|x' y' xs ys Hxy _ IH]; intros Hx.
  { by apply elem_of_nil in Hx. }
  apply elem_of_cons in Hx as [->|Hx].
  - exists y'. split; [left|done].
  - destruct (IH Hx) as (y & Hy & HP). exists y. split; [by right|done].
Qed.

(** Where the bounds of every series other than 0 can be read, the matcher
    returns the first five of a ranking in which each such series has its
    entry. *)
Lemma matcher_ranks_series (SERIES_DATA : list series_info)
    (rot : option (gmap string string)) (l : loadout) (si : series_info) :
  (∀ s, s ∈ SERIES_DATA → series s ≠ 0 → ts_converts (recommended_ts s)) →
  si ∈ SERIES_DATA → series si ≠ 0 →
  ∃ result ranked e,
    find_matching_series_for_loadout SERIES_DATA rot l = Some result
    ∧ result = take 5 ranked
    ∧ length ranked = length (filter (λ si, series si ≠ 0) SERIES_DATA)
    ∧ StronglySorted score_desc ranked
    ∧ e ∈ ranked ∧ entry_for rot l si = Some e.
Proof.
  intros Hall Hin Hne.
  assert (is_Some (series_scores SERIES_DATA rot l)) as [scores Hscores].
  { apply mapM_is_Some, Forall_forall.
    intros s [Hs Hs']%list_elem_of_filter. apply entry_for_is_Some. by apply Hall. }
  pose proof Hscores as Hmap. apply mapM_Some in Hmap.
  destruct (Forall2_elem_of_l _ _ _ si Hmap) as (e & He & Hentry).
  { by apply list_elem_of_filter. }
  exists (take 5 (sort_desc e_score scores)), (sort_desc e_score scores), e.
  split; [apply find_matching_Some; eauto|].
  split; [done|].
  split; [by rewrite sort_desc_perm, (Forall2_length _ _ _ Hmap)|].
  split; [apply (sort_desc_sorted e_score)|].
  split; [by rewrite sort_desc_perm|done].
Qed.

(** The matcher on a catalog of one series other than 0. *)
Lemma matcher_single_series (rot : option (gmap string string)) (l : loadout)
    (si : series_info) (e : series_entry) :
  series si ≠ 0 → entry_for rot l si = Some e →
  find_matching_series_for_loadout [si] rot l = Some [e].
Proof.
  intros Hne He. unfold find_matching_series_for_loadout, series_scores.
  rewrite filter_cons_True, filter_nil by done. cbn. by rewrite He.
Qed.

End ScoreFacts.



Section SpeedSeries.
Import Series.

(** The catalog entry of series 3. *)
Lemma series_3_entry (rot : option (gmap string string)) (l : loadout)
    (cs : gmap string Q) (ds : option (gmap string Q)) (v tv : Q) :
  calcs l = Some {| car_stats := Some cs; driver_stats := ds;
                    total_value := Some tv |} →
  cs !! "speed"%string = Some v →
  (v == 40)%Q → (tv == 500)%Q →
  ∃ e, entry_for rot l {| series := 3; track_stats := "Speed";
                          recommended_ts := "350 - 600" |} = Some e
    ∧ e_series e = 3 ∧ e_track_stats e = "Speed"%string
    ∧ (e_score e == 40 * 2 + 500 * 0.1)%Q ∧ (e_score e == 130)%Q.
Proof.
  intros Hcalcs Hspeed Hv Htv.
  exists {| e_series := 3; e_track_stats := "Speed";
            e_score := (0 + v * 2 + tv * 0.1)%Q |}.
  split.
  - apply entry_for_Some.
    cbn [e_series e_track_stats e_score series track_stats recommended_ts].
    rewrite resolve_fixed_label by done.
    split; [done|]. split; [done|].
    change (focus_of "Speed") with "speed"%string.
    rewrite series_score_speed.
    unfold car_stats_of, total_value_of. rewrite Hcalcs.
    cbn [car_stats total_value from_option Datatypes.id].
    unfold get at 1. rewrite Hspeed. cbn [from_option Datatypes.id].
    apply apply_ts_range_Some. exists 350, 600.
    split; [vm_compute; reflexivity|]. split; [vm_compute; reflexivity|].
    symmetry. apply range_penalty_inside.
    + rewrite Htv. vm_compute. discriminate.
    + rewrite Htv. vm_compute. discriminate.
  - cbn [e_series e_track_stats e_score].
    split; [done|]. split; [done|]. rewrite Hv, Htv. split; reflexivity.
Qed.

End SpeedSeries.

(** C5. For the catalog entry of series 3, focus ["Speed"] and range
    ["350 - 600"], and a loadout with total value 500 and car speed 40, the
    matcher computes the score 40 * 2 + 500 * 0.1 = 130, the total lying
    inside the range: on the catalog of this one entry it returns the entry
    of series 3 with that score, and on every catalog that holds the entry,
    and in which the bounds of every series other than 0 can be read, the
    ranking of which it returns the first five has the entry with that
    score. *)
Theorem speed_series_scores_130 (rot : option (gmap string string))
    (l : Series.loadout) (cs : gmap string Q) (ds : option (gmap string Q))
    (v tv : Q) :
  Series.calcs l = Some {| Series.car_stats := Some cs;
                           Series.driver_stats := ds;
                           Series.total_value := Some tv |} →
  cs !! "speed"%string = Some v →
  (v == 40)%Q → (tv == 500)%Q →
  let si := {| Series.series := 3; Series.track_stats := "Speed";
               Series.recommended_ts := "350 - 600" |} in
  (∃ e, Series.find_matching_series_for_loadout [si] rot l = Some [e]
        ∧ Series.e_series e = 3
        ∧ Series.e_track_stats e = "Speed"%string
        ∧ (Series.e_score e == 40 * 2 + 500 * 0.1)%Q
        ∧ (Series.e_score e == 130)%Q)
  ∧ ∀ SERIES_DATA,
      si ∈ SERIES_DATA →
      (∀ s, s ∈ SERIES_DATA → Series.series s ≠ 0 →
         is_Some (Series.min_ts (Text.split_ts (Series.recommended_ts s)))
         ∧ is_Some (Series.max_ts (Text.split_ts (Series.recommended_ts s)))) →
      ∃ result ranked e,
        Series.find_matching_series_for_loadout SERIES_DATA rot l = Some result
        ∧ result = take 5 ranked
        ∧ length ranked
          = length (filter (λ si, Series.series si ≠ 0) SERIES_DATA)
        ∧ StronglySorted Series.score_desc ranked
        ∧ e ∈ ranked
        ∧ Series.e_series e = 3
        ∧ Series.e_track_stats e = "Speed"%string
        ∧ (Series.e_score e == 40 * 2 + 500 * 0.1)%Q
        ∧ (Series.e_score e == 130)%Q.
Proof.
  intros Hcalcs Hspeed Hv Htv si.
  destruct (series_3_entry rot l cs ds v tv Hcalcs Hspeed Hv Htv)
    as (e & He & H3 & Hlabel & Hsum & H130).
  split.
  - exists e. split; [by apply matcher_single_series|done].
  - intros SERIES_DATA Hin Hall.
    destruct (matcher_ranks_series SERIES_DATA rot l si Hall Hin)
      as (result & ranked & e' & Hresult & Htake & Hlen & Hsorted & He' & Hentry);
      [done|].
    assert (e' = e) as -> by (unfold si in Hentry; congruence).
    by exists result, ranked, e.
Qed.

Lemma speed_series_scores_130_witness :
  ∃ e, Series.find_matching_series_for_loadout
         [ {| Series.series := 3; Series.track_stats := "Speed";
              Series.recommended_ts := "350 - 600" |} ]
         (Some Series.default_rotating_attributes) sample_series_loadout
       = Some [e]
    ∧ (Series.e_score e == 130)%Q.
Proof.
  destruct (speed_series_scores_130 (Some Series.default_rotating_attributes)
              sample_series_loadout {[ "speed"%string := 40%Q ]} None 40 500)
    as [(e & He & _ & _ & _ & H130) _].
  - reflexivity.
  - vm_compute; reflexivity.
  - reflexivity.
  - reflexivity.
  - exists e. split; [exact He|exact H130].
Defined.

Section UnmappedLabel.
Import Series.

(** The entry of a series that is scored on speed. *)
Lemma speed_entry (rot : option (gmap string string)) (l : loadout)
    (si : series_info) (lo hi : Z) :
  focus_of (resolve_track_stats rot (series si) (track_stats si))
  = "speed"%string →
  min_ts (Text.split_ts (recommended_ts si)) = Some lo →
  max_ts (Text.split_ts (recommended_ts si)) = Some hi →
  ∃ e, entry_for rot l si = Some e
    ∧ e_series e = series si
    ∧ e_track_stats e = resolve_track_stats rot (series si) (track_stats si)
    ∧ scored_on_speed (car_stats_of l) (total_value_of l) lo hi (e_score e).
Proof.
  intros Hfocus Hlo Hhi.
  exists {| e_series := series si;
            e_track_stats := resolve_track_stats rot (series si) (track_stats si);
            e_score := range_penalty lo hi (total_value_of l)
                         (0 + get (car_stats_of l) "speed" 0 * 2
                          + total_value_of l * 0.1)%Q |}.
  split.
  - apply entry_for_Some. cbn [e_series e_track_stats e_score].
    split; [done|]. split; [done|].
    rewrite Hfocus, series_score_speed. apply apply_ts_range_Some. eauto.
  - cbn [e_series e_track_stats e_score].
    split; [done|]. split; [done|]. apply range_penalty_on_speed.
Qed.

Lemma speed_loadout_scores (ts : string) (lo hi : Z) (loadouts : list loadout) :
  min_ts (Text.split_ts ts) = Some lo →
  max_ts (Text.split_ts ts) = Some hi →
  ∃ scored,
    mapM (λ l, score ← loadout_score "speed" ts l; Some (l, score)) loadouts
    = Some scored
    ∧ scored.*1 = loadouts
    ∧ ∀ l s, (l, s) ∈ scored →
        scored_on_speed (car_stats_of l) (total_value_of l) lo hi s.
Proof.
  intros Hlo Hhi. induction loadouts as [|l ls (scored & Hscored & Hfst & Hall)].
  { exists []. split; [done|]. split; [done|].
    intros l s Hin. by apply elem_of_nil in Hin. }
  exists ((l, range_penalty lo hi (total_value_of l)
                (0 + get (car_stats_of l) "speed" 0 * 2
                 + total_value_of l * 0.1)%Q) :: scored).
  split; [|split].
  - cbn [mapM]. rewrite loadout_score_speed.
    assert (apply_ts_range ts (total_value_of l)
              (0 + get (car_stats_of l) "speed" 0 * 2 + total_value_of l * 0.1)
            = Some (range_penalty lo hi (total_value_of l)
                      (0 + get (car_stats_of l) "speed" 0 * 2
                       + total_value_of l * 0.1)%Q)) as ->
      by (apply apply_ts_range_Some; eauto).
    cbn. by rewrite Hscored.
  - cbn. by rewrite Hfst.
  - intros l' s [[= -> ->]|Hin]%elem_of_cons.
    + apply range_penalty_on_speed.
    + by apply Hall.
Qed.

End UnmappedLabel.

(** C10. A series whose label, after the rotating override, is not a key
    of [TRACK_STATS_TO_ATTRIBUTES], as is the label ["Rotating"] of a
    series without an override, is scored on speed. The series matcher, on
    a catalog in which the bounds of every series other than 0 can be read,
    ranks the series with the score twice the car's speed plus a tenth of
    the total value, less half of what the total value lacks below the
    range or a fifth of what it has above; the loadout matcher gives every
    loadout that score for the series. *)
Theorem unmapped_label_scores_speed (rot : option (gmap string string))
    (si : Series.series_info) :
  Series.TRACK_STATS_TO_ATTRIBUTES
    !! Series.resolve_track_stats rot (Series.series si) (Series.track_stats si)
    = None
  ∨ (Series.track_stats si = "Rotating"%string
     ∧ Series.no_override rot (Series.series si)) →
  let label :=
    Series.resolve_track_stats rot (Series.series si) (Series.track_stats si) in
  Series.focus_of label = "speed"%string
  ∧ (∀ SERIES_DATA l lo hi,
       si ∈ SERIES_DATA → Series.series si ≠ 0 →
       (∀ s, s ∈ SERIES_DATA → Series.series s ≠ 0 →
          is_Some (Series.min_ts (Text.split_ts (Series.recommended_ts s)))
          ∧ is_Some (Series.max_ts (Text.split_ts (Series.recommended_ts s)))) →
       Series.min_ts (Text.split_ts (Series.recommended_ts si)) = Some lo →
       Series.max_ts (Text.split_ts (Series.recommended_ts si)) = Some hi →
       ∃ result ranked e,
         Series.find_matching_series_for_loadout SERIES_DATA rot l = Some result
         ∧ result = take 5 ranked
         ∧ length ranked
           = length (filter (λ si, Series.series si ≠ 0) SERIES_DATA)
         ∧ StronglySorted Series.score_desc ranked
         ∧ e ∈ ranked
         ∧ Series.e_series e = Series.series si
         ∧ Series.e_track_stats e = label
         ∧ let tv := Series.total_value_of l in
           let base :=
             (Series.get (Series.car_stats_of l) "speed" 0 * 2 + tv * 0.1)%Q in
           ((tv < inject_Z lo)%Q →
              (Series.e_score e == base - (inject_Z lo - tv) * 0.5)%Q)
           ∧ ((inject_Z lo <= tv)%Q → (inject_Z hi < tv)%Q →
              (Series.e_score e == base - (tv - inject_Z hi) * 0.2)%Q)
           ∧ ((inject_Z lo <= tv)%Q → (tv <= inject_Z hi)%Q →
              (Series.e_score e == base)%Q))
  ∧ (∀ SERIES_DATA loadouts lo hi,
       find (λ s, Series.series s =? Series.series si) SERIES_DATA = Some si →
       Series.min_ts (Text.split_ts (Series.recommended_ts si)) = Some lo →
       Series.max_ts (Text.split_ts (Series.recommended_ts si)) = Some hi →
       ∃ result,
         Series.find_best_loadouts_for_series SERIES_DATA (Series.series si)
           loadouts rot = Some result
         ∧ result.*1 ≡ₚ loadouts
         ∧ ∀ l score, (l, score) ∈ result →
             let tv := Series.total_value_of l in
             let base :=
               (Series.get (Series.car_stats_of l) "speed" 0 * 2 + tv * 0.1)%Q in
             ((tv < inject_Z lo)%Q →
                (score == base - (inject_Z lo - tv) * 0.5)%Q)
             ∧ ((inject_Z lo <= tv)%Q → (inject_Z hi < tv)%Q →
                (score == base - (tv - inject_Z hi) * 0.2)%Q)
             ∧ ((inject_Z lo <= tv)%Q → (tv <= inject_Z hi)%Q →
                (score == base)%Q)).
Proof.
  intros H label.
  assert (Series.focus_of label = "speed"%string) as Hfocus.
  { apply focus_of_unmapped. destruct H as [H|[Hrot Hno]]; [done|].
    subst label. rewrite Hrot, resolve_without_override by done.
    apply rotating_unmapped. }
  split; [done|]. split.
  - intros SERIES_DATA l lo hi Hin Hne Hall Hlo Hhi.
    destruct (speed_entry rot l si lo hi Hfocus Hlo Hhi)
      as (e & He & Hs & Hl & Hscore).
    destruct (matcher_ranks_series SERIES_DATA rot l si Hall Hin Hne)
      as (result & ranked & e' & Hresult & Htake & Hlen & Hsorted & He' & Hentry).
    assert (e' = e) as -> by congruence.
    by exists result, ranked, e.
  - intros SERIES_DATA loadouts lo hi Hfind Hlo Hhi.
    destruct (speed_loadout_scores (Series.recommended_ts si) lo hi loadouts
                Hlo Hhi) as (scored & Hscored & Hfst & Hall).
    exists (Series.sort_desc snd scored).
    unfold Series.find_best_loadouts_for_series. rewrite Hfind. cbn zeta.
    fold label. rewrite Hfocus, Hscored. split; [done|].
    split.
    + by rewrite sort_desc_perm, Hfst.
    + intros l score Hin. apply (Hall l score). by rewrite sort_desc_perm in Hin.
Qed.

Lemma unmapped_label_scores_speed_witness :
  ∃ result,
    Series.find_matching_series_for_loadout
      [ {| Series.series := 10; Series.track_stats := "Rotating";
           Series.recommended_ts := "1050 - 1300" |} ]
      None sample_series_loadout
    = Some result
    ∧ ∃ e, e ∈ result
        ∧ Series.e_track_stats e = "Rotating"%string
        ∧ (Series.e_score e
           == 40 * 2 + 500 * 0.1 - (inject_Z 1050 - 500) * 0.5)%Q.
Proof.
  destruct (unmapped_label_scores_speed None
              {| Series.series := 10; Series.track_stats := "Rotating";
                 Series.recommended_ts := "1050 - 1300" |})
    as (_ & Hmatch & _).
  - right. split; [reflexivity|exact I].
  - destruct (Hmatch
                [ {| Series.series := 10; Series.track_stats := "Rotating";
                     Series.recommended_ts := "1050 - 1300" |} ]
                sample_series_loadout 1050 1300)
      as (result & ranked & e & Hresult & Htake & Hlen & _ & He & _ & Hl & Hs).
    + apply list_elem_of_here.
    + discriminate.
    + intros s ->%list_elem_of_singleton _.
      split; eexists; vm_compute; reflexivity.
    + vm_compute; reflexivity.
    + vm_compute; reflexivity.
    + exists result. split; [exact Hresult|]. exists e.
      split; [|split; [exact Hl|]].
      * destruct ranked as [|e0 [|e1 ranked]]; [| |discriminate Hlen].
        { by apply elem_of_nil in He. }
        by subst result.
      * destruct Hs as [Hbelow _]. apply Hbelow. vm_compute. reflexivity.
Defined.


(** * Further properties *)

(** ** The walk of the upgrade calculator *)

Section WalkFacts.
Import Upgrade.
Context (cpl : gmap Z Z).

Lemma seqZ_S (a : Z) (n : nat) :
  seqZ a (Z.of_nat (S n)) = a :: seqZ (a + 1) (Z.of_nat n).
Proof.
  rewrite seqZ_cons by lia. f_equal. f_equal; lia.
Qed.

Lemma sum_costs_cons (l : Z) (ls : list Z) :
  sum_costs cpl (l :: ls) = cost cpl l + sum_costs cpl ls.
Proof. reflexivity. Qed.

Lemma sum_costs_app (l1 l2 : list Z) :
  sum_costs cpl (l1 ++ l2) = sum_costs cpl l1 + sum_costs cpl l2.
Proof.
  induction l1 as [|x l1 IH]; [done|].
  cbn [app]. rewrite !sum_costs_cons, IH. lia.
Qed.

(** The walk over the levels [a], [a + 1], ..., started below [a]: where it
    ends, what has been paid and what could not be paid. *)
Lemma walk_levels_seqZ (n : nat) (a cards : Z) :
  let r := walk_levels cpl (seqZ a (Z.of_nat n)) cards (a - 1) in
  a - 1 ≤ r ≤ a - 1 + Z.of_nat n
  ∧ (a ≤ r → sum_costs cpl (seqZ a (r - a + 1)) ≤ cards)
  ∧ (r < a - 1 + Z.of_nat n → cards < sum_costs cpl (seqZ a (r - a + 2))).
Proof.
  revert a cards. induction n as [|n IH]; intros a cards r.
  { subst r. rewrite seqZ_nil by done. cbn [walk_levels]. lia. }
  subst r. rewrite seqZ_S. cbn [walk_levels].
  destruct (Z.leb_spec (cost cpl a) cards) as [Hpay|Hno].
  - specialize (IH (a + 1) (cards - cost cpl a)).
    replace (a + 1 - 1) with a in IH by lia.
    set (r := walk_levels cpl (seqZ (a + 1) (Z.of_nat n)) (cards - cost cpl a) a) in *.
    destruct IH as (Hb & Hpaid & Hshort).
    split; [lia|]. split.
    + intros _. rewrite (seqZ_cons a) by lia. rewrite sum_costs_cons.
      destruct (decide (r = a)) as [->|Hne].
      * rewrite seqZ_nil by lia. cbn. lia.
      * replace (Z.succ a) with (a + 1) by lia.
        replace (Z.pred (r - a + 1)) with (r - (a + 1) + 1) by lia.
        specialize (Hpaid ltac:(lia)). lia.
    + intros Hr. rewrite (seqZ_cons a) by lia. rewrite sum_costs_cons.
      replace (Z.succ a) with (a + 1) by lia.
      replace (Z.pred (r - a + 2)) with (r - (a + 1) + 2) by lia.
      specialize (Hshort ltac:(lia)). lia.
  - split; [lia|]. split; [lia|]. intros _.
    replace (a - 1 - a + 2) with 1 by lia.
    rewrite seqZ_cons, seqZ_nil by lia. rewrite sum_costs_cons. cbn. lia.
Qed.

Lemma walk_levels_seqZ_mono (n : nat) (a c1 c2 : Z) :
  c1 ≤ c2 →
  walk_levels cpl (seqZ a (Z.of_nat n)) c1 (a - 1)
  ≤ walk_levels cpl (seqZ a (Z.of_nat n)) c2 (a - 1).
Proof.
  revert a c1 c2. induction n as [|n IH]; intros a c1 c2 Hc; [done|].
  rewrite seqZ_S. cbn [walk_levels].
  destruct (Z.leb_spec (cost cpl a) c1), (Z.leb_spec (cost cpl a) c2);
    try lia.
  - specialize (IH (a + 1) (c1 - cost cpl a) (c2 - cost cpl a)).
    replace (a + 1 - 1) with a in IH by lia. apply IH. lia.
  - pose proof (walk_levels_seqZ n (a + 1) (c2 - cost cpl a)) as (Hb & _).
    replace (a + 1 - 1) with a in Hb by lia. lia.
Qed.

End WalkFacts.

Section UpgradeMore.
Import Upgrade.

Lemma range_remaining (l : Z) :
  l ≤ 11 → range (l + 1) 12 = seqZ (l + 1) (Z.of_nat (Z.to_nat (11 - l))).
Proof. intros Hl. unfold range. f_equal. lia. Qed.

Lemma range_past_top (l : Z) : 11 ≤ l → range (l + 1) 12 = [].
Proof. intros Hl. unfold range. apply seqZ_nil. lia. Qed.

(** No level costs a negative number of cards, whatever the rarity. *)
Lemma cost_nonneg (r : string) (l : Z) : 0 ≤ cost (get_cards_per_level r) l.
Proof.
  unfold cost. destruct (get_cards_per_level r !! l) as [c|] eqn:Hc; [|done].
  cbn. unfold get_cards_per_level in Hc.
  repeat match type of Hc with
  | context [String.eqb r ?s] => destruct (String.eqb r s)
  end;
  try (apply elem_of_list_to_map_2 in Hc;
       repeat (apply elem_of_cons in Hc as [[= _ ->]|Hc]; [lia|]);
       by apply elem_of_nil in Hc).
  by rewrite lookup_empty in Hc.
Qed.

Lemma sum_costs_nonneg (r : string) (ls : list Z) :
  0 ≤ sum_costs (get_cards_per_level r) ls.
Proof.
  induction ls as [|l ls IH]; [done|].
  rewrite sum_costs_cons. pose proof (cost_nonneg r l). lia.
Qed.

Lemma calculate_highest_level_owned (it : item) (cards_owned : Z) :
  level it ≠ 0 → level it ≤ 11 →
  calculate_highest_level it cards_owned
  = walk_levels (get_cards_per_level (rarity it))
      (seqZ (level it + 1) (Z.of_nat (Z.to_nat (11 - level it))))
      cards_owned (level it + 1 - 1).
Proof.
  intros H0 H11. unfold calculate_highest_level.
  destruct (Z.eqb_spec (level it) 0); [done|].
  rewrite range_remaining by done. f_equal. lia.
Qed.

End UpgradeMore.

(** X1. The highest level is never below the current level and never above
    level 11, unless the current level is already above 11. *)
Theorem highest_level_bounds (it : Upgrade.item) (cards_owned : Z) :
  Upgrade.level it ≤ Upgrade.calculate_highest_level it cards_owned
  ≤ Z.max (Upgrade.level it) 11.
Proof.
  destruct (decide (Upgrade.level it = 0)) as [H0|H0].
  { unfold Upgrade.calculate_highest_level. rewrite H0. cbn. lia. }
  destruct (Z_le_gt_dec (Upgrade.level it) 11) as [H11|H11].
  - rewrite calculate_highest_level_owned by done.
    pose proof (walk_levels_seqZ (Upgrade.get_cards_per_level (Upgrade.rarity it))
                  (Z.to_nat (11 - Upgrade.level it)) (Upgrade.level it + 1)
                  cards_owned) as (Hb & _).
    lia.
  - unfold Upgrade.calculate_highest_level.
    destruct (Z.eqb_spec (Upgrade.level it) 0); [done|].
    rewrite range_past_top by lia. cbn. lia.
Qed.

(** X2. For an owned item at level 11 or below, the highest level [h] is
    the level at which the cards run out: the levels from [level + 1] to
    [h] cost no more than the cards owned, and when [h] is below 11 the
    levels from [level + 1] to [h + 1] cost more. *)
Theorem highest_level_threshold (it : Upgrade.item) (cards_owned : Z) :
  Upgrade.level it ≠ 0 → Upgrade.level it ≤ 11 →
  let h := Upgrade.calculate_highest_level it cards_owned in
  let cpl := Upgrade.get_cards_per_level (Upgrade.rarity it) in
  (Upgrade.level it < h →
     Upgrade.sum_costs cpl (Upgrade.range (Upgrade.level it + 1) (h + 1))
     ≤ cards_owned)
  ∧ (h < 11 →
     cards_owned
     < Upgrade.sum_costs cpl (Upgrade.range (Upgrade.level it + 1) (h + 2))).
Proof.
  intros H0 H11. cbn zeta.
  rewrite calculate_highest_level_owned by done.
  pose proof (walk_levels_seqZ (Upgrade.get_cards_per_level (Upgrade.rarity it))
                (Z.to_nat (11 - Upgrade.level it))
                (Upgrade.level it + 1) cards_owned) as Hwalk.
  cbn zeta in Hwalk. revert Hwalk.
  generalize (Upgrade.walk_levels (Upgrade.get_cards_per_level (Upgrade.rarity it))
                (seqZ (Upgrade.level it + 1)
                   (Z.of_nat (Z.to_nat (11 - Upgrade.level it))))
                cards_owned (Upgrade.level it + 1 - 1)).
  intros h (Hb & Hpaid & Hshort).
  unfold Upgrade.range. split.
  - intros Hh. replace (h + 1 - (Upgrade.level it + 1))
      with (h - (Upgrade.level it + 1) + 1) by lia.
    apply Hpaid. lia.
  - intros Hh. replace (h + 2 - (Upgrade.level it + 1))
      with (h - (Upgrade.level it + 1) + 2) by lia.
    apply Hshort. lia.
Qed.

Lemma highest_level_threshold_witness :
  let it := Upgrade.fresh_item "Colapinto" "Common" 8 in
  let h := Upgrade.calculate_highest_level it 1009 in
  let cpl := Upgrade.get_cards_per_level "Common" in
  (8 < h → Upgrade.sum_costs cpl (Upgrade.range 9 (h + 1)) ≤ 1009)
  ∧ (h < 11 → 1009 < Upgrade.sum_costs cpl (Upgrade.range 9 (h + 2))).
Proof.
  apply (highest_level_threshold (Upgrade.fresh_item "Colapinto" "Common" 8) 1009).
  - cbn; lia.
  - cbn; lia.
Defined.

(** X3. More cards never give a lower highest level. *)
Theorem highest_level_monotone (it : Upgrade.item) (c1 c2 : Z) :
  c1 ≤ c2 →
  Upgrade.calculate_highest_level it c1 ≤ Upgrade.calculate_highest_level it c2.
Proof.
  intros Hc.
  destruct (decide (Upgrade.level it = 0)) as [H0|H0].
  { unfold Upgrade.calculate_highest_level. rewrite H0. done. }
  destruct (Z_le_gt_dec (Upgrade.level it) 11) as [H11|H11].
  - rewrite !calculate_highest_level_owned by done.
    by apply walk_levels_seqZ_mono.
  - unfold Upgrade.calculate_highest_level.
    destruct (Z.eqb_spec (Upgrade.level it) 0); [done|].
    rewrite range_past_top by lia. done.
Qed.

Lemma highest_level_monotone_witness :
  Upgrade.calculate_highest_level (Upgrade.fresh_item "Bottas" "Rare" 7) 100
  ≤ Upgrade.calculate_highest_level (Upgrade.fresh_item "Bottas" "Rare" 7) 677.
Proof.
  apply (highest_level_monotone (Upgrade.fresh_item "Bottas" "Rare" 7) 100 677).
  lia.
Defined.

Section UpgradeTotals.
Import Upgrade.

(** The end of the walk for an owned item at level 11 or below. *)
Lemma owned_highest_level_facts (it : item) (cards_owned : Z) :
  level it ≠ 0 → level it ≤ 11 →
  let h := calculate_highest_level it cards_owned in
  let cpl := get_cards_per_level (rarity it) in
  level it ≤ h ≤ 11
  ∧ (level it < h → sum_costs cpl (range (level it + 1) (h + 1)) ≤ cards_owned)
  ∧ (h < 11 → cards_owned < sum_costs cpl (range (level it + 1) (h + 2))).
Proof.
  intros H0 H11. cbn zeta.
  rewrite calculate_highest_level_owned by done.
  pose proof (walk_levels_seqZ (get_cards_per_level (rarity it))
                (Z.to_nat (11 - level it)) (level it + 1) cards_owned) as Hwalk.
  cbn zeta in Hwalk. revert Hwalk.
  generalize (walk_levels (get_cards_per_level (rarity it))
                (seqZ (level it + 1) (Z.of_nat (Z.to_nat (11 - level it))))
                cards_owned (level it + 1 - 1)).
  intros h (Hb & Hpaid & Hshort). unfold range.
  split; [lia|]. split.
  - intros Hh. replace (h + 1 - (level it + 1))
      with (h - (level it + 1) + 1) by lia.
    apply Hpaid. lia.
  - intros Hh. replace (h + 2 - (level it + 1))
      with (h - (level it + 1) + 2) by lia.
    apply Hshort. lia.
Qed.

Lemma level_cases (l : Z) :
  0 ≤ l ≤ 11 →
  l = 0 ∨ l = 1 ∨ l = 2 ∨ l = 3 ∨ l = 4 ∨ l = 5 ∨ l = 6 ∨ l = 7 ∨ l = 8
  ∨ l = 9 ∨ l = 10 ∨ l = 11.
Proof. lia. Qed.

(** The cards of a table split into those of the levels up to [l] and
    those of the levels above [l]. *)
Lemma table_total_split (r : string) (l : Z) :
  0 ≤ l ≤ 11 →
  sum_values (get_cards_per_level r)
  = sum_costs (get_cards_per_level r) (range 2 (l + 1))
    + sum_costs (get_cards_per_level r) (range (l + 1) 12).
Proof.
  intros Hl. unfold get_cards_per_level.
  repeat match goal with
  | |- context [String.eqb r ?s] => destruct (String.eqb r s)
  end;
  [apply level_cases in Hl;
   repeat destruct Hl as [->|Hl]; try subst l; vm_compute; reflexivity ..|].
  by rewrite sum_values_empty, !sum_costs_empty.
Qed.

End UpgradeTotals.

(** X4. For a level from 0 to 11, [maxCards] is what the item has cost so
    far, [totalCards - cardsOwned], plus [cardsNeeded]. *)
Theorem max_cards_is_used_plus_needed (it : Upgrade.item) (cards_owned : Z) :
  0 ≤ Upgrade.level it ≤ 11 →
  ∃ info, Upgrade.upgradeInfo (Upgrade.update_item_upgrade_info it cards_owned)
          = Some info
    ∧ Upgrade.maxCards info
      = Upgrade.totalCards info - Upgrade.cardsOwned info
        + Upgrade.cardsNeeded info.
Proof.
  intros Hl. eexists. split; [reflexivity|]. cbn.
  rewrite (table_total_split (Upgrade.rarity it) (Upgrade.level it) Hl). lia.
Qed.

Lemma max_cards_is_used_plus_needed_witness :
  ∃ info, Upgrade.upgradeInfo
            (Upgrade.update_item_upgrade_info
               (Upgrade.fresh_item "Hulkenberg" "Epic" 6) 7) = Some info
    ∧ Upgrade.maxCards info
      = Upgrade.totalCards info - Upgrade.cardsOwned info
        + Upgrade.cardsNeeded info.
Proof.
  apply (max_cards_is_used_plus_needed (Upgrade.fresh_item "Hulkenberg" "Epic" 6) 7).
  cbn; lia.
Defined.

(** X5. An owned item at level 11 or below, with a non-negative number of
    cards, reaches level 11 exactly when the cards owned cover
    [cardsNeeded]. *)
Theorem reaches_top_iff_cards_cover_needed (it : Upgrade.item) (cards_owned : Z) :
  1 ≤ Upgrade.level it ≤ 11 → 0 ≤ cards_owned →
  ∃ info, Upgrade.upgradeInfo (Upgrade.update_item_upgrade_info it cards_owned)
          = Some info
    ∧ (Upgrade.highestLevel (Upgrade.update_item_upgrade_info it cards_owned)
       = Some 11
       ↔ Upgrade.cardsNeeded info ≤ cards_owned).
Proof.
  intros Hl Hc. eexists. split; [reflexivity|]. cbn.
  pose proof (owned_highest_level_facts it cards_owned ltac:(lia) ltac:(lia))
    as (Hb & Hpaid & Hshort).
  cbn zeta in Hb, Hpaid, Hshort. revert Hb Hpaid Hshort.
  generalize (Upgrade.calculate_highest_level it cards_owned). intros h Hb Hpaid Hshort.
  split.
  - intros [= ->]. destruct (decide (Upgrade.level it = 11)) as [->|Hne].
    + rewrite range_past_top by lia. cbn. lia.
    + apply Hpaid. lia.
  - intros Hneed. f_equal.
    destruct (decide (h = 11)) as [|Hne]; [done|]. exfalso.
    specialize (Hshort ltac:(lia)).
    assert (Upgrade.range (Upgrade.level it + 1) 12
            = Upgrade.range (Upgrade.level it + 1) (h + 2)
              ++ Upgrade.range (h + 2) 12) as Hsplit.
    { unfold Upgrade.range.
      replace (12 - (Upgrade.level it + 1))
        with ((h + 2 - (Upgrade.level it + 1)) + (12 - (h + 2))) by lia.
      rewrite seqZ_app by lia. do 2 f_equal; lia. }
    rewrite Hsplit, sum_costs_app in Hneed.
    pose proof (sum_costs_nonneg (Upgrade.rarity it) (Upgrade.range (h + 2) 12)).
    lia.
Qed.

Lemma reaches_top_iff_cards_cover_needed_witness :
  ∃ info, Upgrade.upgradeInfo
            (Upgrade.update_item_upgrade_info
               (Upgrade.fresh_item "Berger" "Legendary" 9) 600) = Some info
    ∧ (Upgrade.highestLevel
         (Upgrade.update_item_upgrade_info
            (Upgrade.fresh_item "Berger" "Legendary" 9) 600) = Some 11
       ↔ Upgrade.cardsNeeded info ≤ 600).
Proof.
  apply (reaches_top_iff_cards_cover_needed
           (Upgrade.fresh_item "Berger" "Legendary" 9) 600).
  - cbn; lia.
  - lia.
Defined.

(** X6. An item that is not owned (level 0) gets [highestLevel] 0 whatever
    the cards, its [totalCards] are the cards owned, and its [cardsNeeded]
    is all of [maxCards]. *)
Theorem unowned_item_upgrade_info (it : Upgrade.item) (cards_owned : Z) :
  Upgrade.level it = 0 →
  let it' := Upgrade.update_item_upgrade_info it cards_owned in
  Upgrade.highestLevel it' = Some 0
  ∧ ∃ info, Upgrade.upgradeInfo it' = Some info
      ∧ Upgrade.totalCards info = cards_owned
      ∧ Upgrade.cardsNeeded info = Upgrade.maxCards info.
Proof.
  intros H0. cbn zeta. split.
  - cbn. unfold Upgrade.calculate_highest_level. by rewrite H0.
  - eexists. split; [reflexivity|]. cbn.
    rewrite (table_total_split (Upgrade.rarity it) (Upgrade.level it)) by lia.
    rewrite H0. change (Upgrade.range 2 (0 + 1)) with (@nil Z).
    cbn. split; lia.
Qed.

Lemma unowned_item_upgrade_info_witness :
  let it' := Upgrade.update_item_upgrade_info
               (Upgrade.fresh_item "Test Zero" "Common" 0) 500 in
  Upgrade.highestLevel it' = Some 0
  ∧ ∃ info, Upgrade.upgradeInfo it' = Some info
      ∧ Upgrade.totalCards info = 500
      ∧ Upgrade.cardsNeeded info = Upgrade.maxCards info.
Proof.
  apply (unowned_item_upgrade_info (Upgrade.fresh_item "Test Zero" "Common" 0) 500).
  reflexivity.
Defined.

(** ** The scan at the ends of a level table *)

Section ScanMore.
Import Interp.

(** Below every level of the list the scan stops at the first one. *)
Lemma scan_levels_below (level m : Z) (ls : list Z) (lower : option Z) :
  StronglySorted Z.lt ls →
  m ∈ ls → (∀ x, x ∈ ls → m ≤ x) → level < m →
  scan_levels level ls lower = (lower, Some m).
Proof.
  intros Hs Hm Hmin Hlt. destruct Hs as [|x ls Hs Hall].
  { by apply elem_of_nil in Hm. }
  rewrite Forall_forall in Hall.
  assert (x = m) as ->.
  { apply elem_of_cons in Hm as [->|Hm]; [done|].
    specialize (Hall m Hm). specialize (Hmin x ltac:(left)). lia. }
  cbn [scan_levels].
  destruct (Z.ltb_spec m level); [lia|].
  by destruct (Z.ltb_spec level m); [|lia].
Qed.

(** Above every level of the list the scan ends with the last one. *)
Lemma scan_levels_above (level m : Z) (ls : list Z) (lower : option Z) :
  StronglySorted Z.lt ls →
  m ∈ ls → (∀ x, x ∈ ls → x ≤ m) → m < level →
  scan_levels level ls lower = (Some m, None).
Proof.
  intros Hs. revert lower.
  induction Hs as [|x ls Hs IH Hall]; intros lower Hm Hmax Hlt.
  { by apply elem_of_nil in Hm. }
  rewrite Forall_forall in Hall. cbn [scan_levels].
  assert (x ≤ m) by (apply Hmax; left).
  destruct (Z.ltb_spec x level); [|lia].
  destruct ls as [|y ls].
  - apply list_elem_of_singleton in Hm as ->. done.
  - apply IH; [|by (intros z Hz; apply Hmax; right)|done].
    apply elem_of_cons in Hm as [->|Hm]; [|done].
    specialize (Hall y ltac:(left)). specialize (Hmax y ltac:(right; left)). lia.
Qed.

(** Whatever the scan returns is a level of the list, or the lower level
    it was started with. *)
Lemma scan_levels_elem_of (level : Z) (ls : list Z) (lower lo hi : option Z) :
  scan_levels level ls lower = (lo, hi) →
  (lo = lower ∨ ∃ x, lo = Some x ∧ x ∈ ls)
  ∧ (hi = None ∨ ∃ x, hi = Some x ∧ x ∈ ls).
Proof.
  revert lower. induction ls as [|x ls IH]; intros lower Hscan.
  { injection Hscan as <- <-. by split; left. }
  cbn [scan_levels] in Hscan.
  destruct (x <? level).
  - apply IH in Hscan as [[->|(y & -> & Hy)] Hhi].
    + split; [right; exists x; split; [done|left]|].
      destruct Hhi as [->|(y & -> & Hy)]; [by left|].
      right. exists y. split; [done|by right].
    + split; [right; exists y; split; [done|by right]|].
      destruct Hhi as [->|(z & -> & Hz)]; [by left|].
      right. exists z. split; [done|by right].
  - destruct (level <? x).
    + injection Hscan as <- <-. split; [by left|].
      right. exists x. split; [done|left].
    + apply IH in Hscan as [Hlo Hhi]. split.
      * destruct Hlo as [->|(y & -> & Hy)]; [by left|].
        right. exists y. split; [done|by right].
      * destruct Hhi as [->|(y & -> & Hy)]; [by left|].
        right. exists y. split; [done|by right].
Qed.

Lemma scan_levels_keeps_lower (level a : Z) (ls : list Z) :
  ∃ b, (scan_levels level ls (Some a)).1 = Some b.
Proof.
  revert a. induction ls as [|x ls IH]; intros a; cbn [scan_levels].
  { by exists a. }
  destruct (x <? level); [apply IH|].
  destruct (level <? x); [by exists a|apply IH].
Qed.

(** On a list that is not empty and does not hold [level], the scan finds
    a level on one side at least. *)
Lemma scan_levels_finds (level : Z) (ls : list Z) :
  ls ≠ [] → level ∉ ls → scan_levels level ls None ≠ (None, None).
Proof.
  destruct ls as [|x ls]; [done|]. intros _ Hnot. cbn [scan_levels].
  destruct (Z.ltb_spec x level).
  - destruct (scan_levels_keeps_lower level x ls) as [b Hb].
    intros Heq. rewrite Heq in Hb. done.
  - destruct (Z.ltb_spec level x); [done|].
    exfalso. apply Hnot. assert (x = level) as -> by lia. left.
Qed.

Lemma sorted_level_numbers_nil {A} (levels : gmap Z A) :
  sorted_level_numbers levels = [] ↔ levels = ∅.
Proof.
  split.
  - intros Hnil. apply map_empty. intros l.
    destruct (levels !! l) eqn:Hl; [|done].
    assert (l ∈ sorted_level_numbers levels) as Hin
      by (apply elem_of_sorted_level_numbers; eauto).
    rewrite Hnil in Hin. by apply elem_of_nil in Hin.
  - intros ->. unfold sorted_level_numbers.
    rewrite map_to_list_empty. reflexivity.
Qed.

(** What the rounding of a driver stat can change: half a point at most. *)
Lemma py_round_error (x : Q) :
  (x - (1 # 2) <= inject_Z (py_round x) <= x + (1 # 2))%Q.
Proof.
  unfold py_round.
  pose proof (Qfloor_le x) as Hle. pose proof (Qlt_floor x) as Hlt.
  rewrite inject_Z_plus in Hlt. change (inject_Z 1) with 1%Q in Hlt.
  destruct (x - inject_Z (Qfloor x) ?= 1 # 2)%Q eqn:Hcmp.
  - apply Qeq_alt in Hcmp.
    destruct (Z.even _); [|rewrite inject_Z_plus; change (inject_Z 1) with 1%Q];
      split; lra.
  - apply Qlt_alt in Hcmp. split; lra.
  - apply Qgt_alt in Hcmp.
    rewrite inject_Z_plus; change (inject_Z 1) with 1%Q. split; lra.
Qed.

Lemma lerp_bounds_desc (f lo hi : Q) :
  (0 <= f <= 1)%Q → (hi <= lo)%Q → (hi <= lerp f lo hi <= lo)%Q.
Proof. intros [H0 H1] Hle. unfold lerp. split; nra. Qed.

End ScanMore.

Section TableEnds.
Import Interp.

Lemma scan_below_table {A} (levels : gmap Z A) (lvl m : Z) :
  is_Some (levels !! m) → (∀ l, is_Some (levels !! l) → m ≤ l) → lvl < m →
  levels !! lvl = None
  ∧ scan_levels lvl (sorted_level_numbers levels) None = (None, Some m).
Proof.
  intros Hm Hmin Hlt. split.
  - destruct (levels !! lvl) eqn:Hl; [|done].
    specialize (Hmin lvl ltac:(eauto)). lia.
  - apply scan_levels_below; [apply sorted_level_numbers_sorted| |  |done].
    + by apply elem_of_sorted_level_numbers.
    + intros x Hx. by apply Hmin, elem_of_sorted_level_numbers.
Qed.

Lemma scan_above_table {A} (levels : gmap Z A) (lvl m : Z) :
  is_Some (levels !! m) → (∀ l, is_Some (levels !! l) → l ≤ m) → m < lvl →
  levels !! lvl = None
  ∧ scan_levels lvl (sorted_level_numbers levels) None = (Some m, None).
Proof.
  intros Hm Hmax Hlt. split.
  - destruct (levels !! lvl) eqn:Hl; [|done].
    specialize (Hmax lvl ltac:(eauto)). lia.
  - apply scan_levels_above; [apply sorted_level_numbers_sorted| |  |done].
    + by apply elem_of_sorted_level_numbers.
    + intros x Hx. by apply Hmax, elem_of_sorted_level_numbers.
Qed.

(** On a table that is not empty and has no entry for [lvl], the scan
    returns a sampled level on one side at least, and only sampled levels. *)
Lemma scan_table_finds {A} (levels : gmap Z A) (lvl : Z) :
  levels ≠ ∅ → levels !! lvl = None →
  ∃ lo hi, scan_levels lvl (sorted_level_numbers levels) None = (lo, hi)
    ∧ (is_Some lo ∨ is_Some hi)
    ∧ (∀ x, lo = Some x → is_Some (levels !! x))
    ∧ (∀ x, hi = Some x → is_Some (levels !! x)).
Proof.
  intros Hne Hl.
  destruct (scan_levels lvl (sorted_level_numbers levels) None)
    as [lo hi] eqn:Hscan.
  exists lo, hi. split; [done|].
  pose proof (scan_levels_elem_of _ _ _ _ _ Hscan) as [Hlo Hhi].
  split; [|split].
  - destruct lo, hi; eauto. exfalso.
    revert Hscan. apply scan_levels_finds.
    + by rewrite sorted_level_numbers_nil.
    + rewrite elem_of_sorted_level_numbers, Hl. by intros [? ?].
  - intros x ->. destruct Hlo as [|(y & [= <-] & Hy)]; [done|].
    by apply elem_of_sorted_level_numbers.
  - intros x ->. destruct Hhi as [|(y & [= <-] & Hy)]; [done|].
    by apply elem_of_sorted_level_numbers.
Qed.

End TableEnds.

(** X7. No extrapolation: a request below the lowest sampled level of an
    item returns the bundle of the lowest level, and a request above the
    highest sampled level returns the bundle of the highest one, for
    components and for drivers. *)
Theorem stats_clamped_at_table_ends :
  (∀ (raw_data : gmap string Components.component) (n : string)
     (c : Components.component) (m lvl : Z) (e : Components.level_stats),
     raw_data !! n = Some c →
     Components.levels c !! m = Some e →
     (lvl < m ∧ ∀ l, is_Some (Components.levels c !! l) → m ≤ l)
     ∨ (m < lvl ∧ ∀ l, is_Some (Components.levels c !! l) → l ≤ m) →
     Components.get_component_stats raw_data n lvl true = Some e)
  ∧
  (∀ (raw_data : gmap string Drivers.driver) (n rarity : string)
     (d : Drivers.driver) (m lvl : Z) (e : Drivers.level_stats),
     raw_data !! (n +:+ "_" +:+ rarity)%string = Some d →
     Drivers.levels d !! m = Some e →
     (lvl < m ∧ ∀ l, is_Some (Drivers.levels d !! l) → m ≤ l)
     ∨ (m < lvl ∧ ∀ l, is_Some (Drivers.levels d !! l) → l ≤ m) →
     Drivers.get_driver_stats raw_data n rarity lvl true = Some e).
Proof.
  split.
  - intros raw_data n c m lvl e Hc He Hend.
    unfold Components.get_component_stats. rewrite Hc. cbn zeta.
    destruct Hend as [[Hlt Hmin]|[Hlt Hmax]].
    + destruct (scan_below_table (Components.levels c) lvl m) as [-> ->]; eauto.
    + destruct (scan_above_table (Components.levels c) lvl m) as [-> ->]; eauto.
  - intros raw_data n rarity d m lvl e Hd He Hend.
    unfold Drivers.get_driver_stats. cbn zeta. rewrite Hd.
    destruct Hend as [[Hlt Hmin]|[Hlt Hmax]].
    + destruct (scan_below_table (Drivers.levels d) lvl m) as [-> ->]; eauto.
    + destruct (scan_above_table (Drivers.levels d) lvl m) as [-> ->]; eauto.
Qed.

Lemma stats_clamped_at_table_ends_witness :
  Components.get_component_stats two_samples "Sample" 11 true
  = Some (Components.level_entry (speed_row 9 20))
  ∧ Drivers.get_driver_stats sample_driver "Bottas" "Epic" 1 true
    = Some (driver_entry 2 50).
Proof.
  split.
  - apply (proj1 stats_clamped_at_table_ends two_samples "Sample"
             {| Components.name := "Sample";
                Components.type := "Brakes";
                Components.rarity := "Common";
                Components.series := 1;
                Components.levels :=
                  Components.process_rows [speed_row 5 10; speed_row 9 20] |}
             9 11).
    + vm_compute; reflexivity.
    + vm_compute; reflexivity.
    + right. split; [lia|]. intros l [e Hl].
      destruct (Z_le_gt_dec l 9) as [|Hgt]; [done|]. exfalso.
      cbn [Components.levels Components.process_rows foldl] in Hl.
      unfold speed_row in Hl. cbn [Components.Level] in Hl.
      apply lookup_insert_Some in Hl as [[? _]|[_ Hl]]; [lia|].
      apply lookup_insert_Some in Hl as [[? _]|[_ Hl]]; [lia|].
      by rewrite lookup_empty in Hl.
  - apply (proj2 stats_clamped_at_table_ends sample_driver "Bottas" "Epic"
             {| Drivers.name := "Bottas";
                Drivers.rarity := "Epic";
                Drivers.series := 3;
                Drivers.levels :=
                  {[ 2 := driver_entry 2 50; 5 := driver_entry 5 69 ]} |}
             2 1).
    + vm_compute; reflexivity.
    + vm_compute; reflexivity.
    + left. split; [lia|]. intros l [e Hl].
      destruct (Z_le_gt_dec 2 l) as [|Hgt]; [done|]. exfalso.
      cbn [Drivers.levels] in Hl.
      apply lookup_insert_Some in Hl as [[? _]|[_ Hl]]; [lia|].
      apply lookup_singleton_Some in Hl as [? _]. lia.
Defined.

(** X8. With interpolation on, the interpolator has no answer only for an
    item that is not in the raw data or whose level table is empty: an
    item with at least one sampled level gets stats at every level. *)
Theorem stats_missing_iff_no_samples :
  (∀ (raw_data : gmap string Components.component) (n : string) (lvl : Z),
     Components.get_component_stats raw_data n lvl true = None
     ↔ raw_data !! n = None
       ∨ ∃ c, raw_data !! n = Some c ∧ Components.levels c = ∅)
  ∧
  (∀ (raw_data : gmap string Drivers.driver) (n rarity : string) (lvl : Z),
     Drivers.get_driver_stats raw_data n rarity lvl true = None
     ↔ raw_data !! (n +:+ "_" +:+ rarity)%string = None
       ∨ ∃ d, raw_data !! (n +:+ "_" +:+ rarity)%string = Some d
              ∧ Drivers.levels d = ∅).
Proof.
  split.
  - intros raw_data n lvl. unfold Components.get_component_stats.
    destruct (raw_data !! n) as [c|] eqn:Hc; [|by split; [left|]].
    cbn zeta. split.
    + intros Hnone. right. exists c. split; [done|].
      destruct (Components.levels c !! lvl) eqn:Hl; [done|].
      destruct (decide (Components.levels c = ∅)) as [|Hne]; [done|]. exfalso.
      destruct (scan_table_finds _ lvl Hne Hl) as (lo & hi & Hscan & Hsome & Hlo & Hhi).
      rewrite Hscan in Hnone.
      destruct lo as [lo|], hi as [hi|].
      * destruct (Hlo lo eq_refl) as [? Hx], (Hhi hi eq_refl) as [? Hy].
        by rewrite Hx, Hy in Hnone.
      * destruct (Hlo lo eq_refl) as [? Hx]. by rewrite Hx in Hnone.
      * destruct (Hhi hi eq_refl) as [? Hy]. by rewrite Hy in Hnone.
      * by destruct Hsome as [[? ?]|[? ?]].
    + intros [|(c' & [= <-] & Hempty)]; [done|].
      rewrite Hempty, lookup_empty.
      replace (Interp.sorted_level_numbers ∅) with (@nil Z); [done|].
      symmetry. by apply (sorted_level_numbers_nil (A:=Components.level_stats)).
  - intros raw_data n rarity lvl. unfold Drivers.get_driver_stats. cbn zeta.
    destruct (raw_data !! _) as [d|] eqn:Hd; [|by split; [left|]].
    split.
    + intros Hnone. right. exists d. split; [done|].
      destruct (Drivers.levels d !! lvl) eqn:Hl; [done|].
      destruct (decide (Drivers.levels d = ∅)) as [|Hne]; [done|]. exfalso.
      destruct (scan_table_finds _ lvl Hne Hl) as (lo & hi & Hscan & Hsome & Hlo & Hhi).
      rewrite Hscan in Hnone.
      destruct lo as [lo|], hi as [hi|].
      * destruct (Hlo lo eq_refl) as [? Hx], (Hhi hi eq_refl) as [? Hy].
        by rewrite Hx, Hy in Hnone.
      * destruct (Hlo lo eq_refl) as [? Hx]. by rewrite Hx in Hnone.
      * destruct (Hhi hi eq_refl) as [? Hy]. by rewrite Hy in Hnone.
      * by destruct Hsome as [[? ?]|[? ?]].
    + intros [|(d' & [= <-] & Hempty)]; [done|].
      rewrite Hempty, lookup_empty.
      replace (Interp.sorted_level_numbers ∅) with (@nil Z); [done|].
      symmetry. by apply (sorted_level_numbers_nil (A:=Drivers.level_stats)).
Qed.

(** X9. Between two neighbouring sampled levels, a stat that falls from
    the lower sample to the higher one, as a pit time does, is interpolated
    to a value between the two: never below the higher level's sample and
    never above the lower level's. *)
Theorem interpolation_between_falling_samples :
  (∀ (raw_data : gmap string Components.component) (n : string)
     (c : Components.component) (a b lvl : Z) (ea eb : Components.level_stats),
     raw_data !! n = Some c →
     Components.levels c !! a = Some ea →
     Components.levels c !! b = Some eb →
     a < lvl < b →
     (∀ l, a < l < b → Components.levels c !! l = None) →
     ∃ r, Components.get_component_stats raw_data n lvl true = Some r
       ∧ ∀ stat, stat ∈ [Components.speed; Components.cornering;
                         Components.power_unit; Components.qualifying;
                         Components.pit_time] →
           (stat eb <= stat ea → stat eb <= stat r <= stat ea)%Q)
  ∧
  (∀ (raw_data : gmap string Drivers.driver) (n rarity : string)
     (d : Drivers.driver) (a b lvl : Z) (ea eb : Drivers.level_stats),
     raw_data !! (n +:+ "_" +:+ rarity)%string = Some d →
     Drivers.levels d !! a = Some ea →
     Drivers.levels d !! b = Some eb →
     a < lvl < b →
     (∀ l, a < l < b → Drivers.levels d !! l = None) →
     ∃ r, Drivers.get_driver_stats raw_data n rarity lvl true = Some r
       ∧ ∀ stat, stat ∈ [Drivers.overtaking; Drivers.defending;
                         Drivers.qualifying; Drivers.race_start;
                         Drivers.tyre_mgmt] →
           stat eb ≤ stat ea → stat eb ≤ stat r ≤ stat ea).
Proof.
  split.
  - intros raw_data n c a b lvl ea eb Hc Ha Hb Hab Hgap.
    eexists. split.
    { by apply (component_interpolation_between raw_data n c a b lvl ea eb). }
    pose proof (factor_bounds lvl a b Hab) as Hf.
    intros stat Hstat Hle.
    repeat (apply elem_of_cons in Hstat as [->|Hstat];
            [by apply lerp_bounds_desc|]).
    by apply elem_of_nil in Hstat.
  - intros raw_data n rarity d a b lvl ea eb Hd Ha Hb Hab Hgap.
    eexists. split.
    { by apply (driver_interpolation_between raw_data n rarity d a b lvl ea eb). }
    pose proof (factor_bounds lvl a b Hab) as Hf.
    assert (∀ lo hi : Z, hi ≤ lo →
              hi ≤ Drivers.interp (Interp.factor lvl a b) lo hi ≤ lo) as Hint.
    { intros lo hi Hle. unfold Drivers.interp.
      assert (inject_Z hi <= inject_Z lo)%Q as Hq by (by rewrite <- Zle_Qle).
      destruct (lerp_bounds_desc _ _ _ Hf Hq).
      split; [by apply py_round_lower|by apply py_round_upper]. }
    intros stat Hstat Hle.
    repeat (apply elem_of_cons in Hstat as [->|Hstat]; [by apply Hint|]).
    by apply elem_of_nil in Hstat.
Qed.

Lemma interpolation_between_falling_samples_witness :
  ∃ r, Components.get_component_stats
         (sample_component [speed_row 5 20; speed_row 9 10]) "Sample" 7 true
       = Some r
    ∧ (10 <= Components.speed r <= 20)%Q.
Proof.
  destruct (proj1 interpolation_between_falling_samples
              (sample_component [speed_row 5 20; speed_row 9 10]) "Sample"
              {| Components.name := "Sample";
                 Components.type := "Brakes";
                 Components.rarity := "Common";
                 Components.series := 1;
                 Components.levels :=
                   Components.process_rows [speed_row 5 20; speed_row 9 10] |}
              5 9 7
              (Components.level_entry (speed_row 5 20))
              (Components.level_entry (speed_row 9 10)))
    as (r & Hr & Hstat).
  - vm_compute; reflexivity.
  - vm_compute; reflexivity.
  - vm_compute; reflexivity.
  - lia.
  - intros l Hl. assert (l = 6 ∨ l = 7 ∨ l = 8) as [->|[->| ->]] by lia;
      vm_compute; reflexivity.
  - exists r. split; [exact Hr|].
    apply (Hstat Components.speed); [left|].
    vm_compute. discriminate.
Defined.

(** X10. Between two neighbouring sampled levels, every driver stat that
    [get_driver_stats] returns is within half a point of the linear
    interpolation of the two samples. *)
Theorem driver_interpolation_rounds_to_nearest
    (raw_data : gmap string Drivers.driver) (n rarity : string)
    (d : Drivers.driver) (a b lvl : Z) (ea eb : Drivers.level_stats) :
  raw_data !! (n +:+ "_" +:+ rarity)%string = Some d →
  Drivers.levels d !! a = Some ea →
  Drivers.levels d !! b = Some eb →
  a < lvl < b →
  (∀ l, a < l < b → Drivers.levels d !! l = None) →
  ∃ r, Drivers.get_driver_stats raw_data n rarity lvl true = Some r
    ∧ ∀ stat, stat ∈ [Drivers.overtaking; Drivers.defending;
                      Drivers.qualifying; Drivers.race_start;
                      Drivers.tyre_mgmt] →
        let exact := Interp.lerp (Interp.factor lvl a b)
                       (inject_Z (stat ea)) (inject_Z (stat eb)) in
        (exact - (1 # 2) <= inject_Z (stat r) <= exact + (1 # 2))%Q.
Proof.
  intros Hd Ha Hb Hab Hgap. eexists. split.
  { by apply (driver_interpolation_between raw_data n rarity d a b lvl ea eb). }
  intros stat Hstat.
  repeat (apply elem_of_cons in Hstat as [->|Hstat]; [apply py_round_error|]).
  by apply elem_of_nil in Hstat.
Qed.

Lemma driver_interpolation_rounds_to_nearest_witness :
  ∃ r, Drivers.get_driver_stats sample_driver "Bottas" "Epic" 3 true = Some r
    ∧ (Interp.lerp (Interp.factor 3 2 5) (inject_Z 50) (inject_Z 69) - (1 # 2)
       <= inject_Z (Drivers.overtaking r)
       <= Interp.lerp (Interp.factor 3 2 5) (inject_Z 50) (inject_Z 69) + (1 # 2))%Q.
Proof.
  destruct (driver_interpolation_rounds_to_nearest sample_driver
              "Bottas" "Epic"
              {| Drivers.name := "Bottas";
                 Drivers.rarity := "Epic";
                 Drivers.series := 3;
                 Drivers.levels :=
                   {[ 2 := driver_entry 2 50; 5 := driver_entry 5 69 ]} |}
              2 5 3 (driver_entry 2 50) (driver_entry 5 69))
    as (r & Hr & Hstat).
  - vm_compute; reflexivity.
  - vm_compute; reflexivity.
  - vm_compute; reflexivity.
  - lia.
  - intros l Hl. assert (l = 3 ∨ l = 4) as [->| ->] by lia;
      vm_compute; reflexivity.
  - exists r. split; [exact Hr|].
    exact (Hstat Drivers.overtaking ltac:(left)).
Defined.

Section ProcessorTables.

(** Reading the component table after one more row. *)
Lemma component_rows_snoc (rows : list Components.row) (r : Components.row) (l : Z) :
  Components.process_rows (rows ++ [r]) !! l
  = if decide (Components.Level r = l)
    then Some (Components.level_entry r)
    else Components.process_rows rows !! l.
Proof.
  unfold Components.process_rows. rewrite foldl_app. cbn [foldl].
  apply lookup_insert.
Qed.

Lemma component_rows_lookup (rows : list Components.row) (l : Z)
    (e : Components.level_stats) :
  Components.process_rows rows !! l = Some e →
  ∃ r, r ∈ rows ∧ Components.Level r = l ∧ e = Components.level_entry r.
Proof.
  induction rows as [|r rows IH] using rev_ind.
  { change (Components.process_rows []) with (∅ : gmap Z Components.level_stats).
    by rewrite lookup_empty. }
  rewrite component_rows_snoc. case_decide as Hl.
  - intros [= <-]. exists r. split; [set_solver|done].
  - intros (r' & Hr' & ? & ?)%IH. exists r'. split; [set_solver|done].
Qed.

Lemma component_rows_covered (rows : list Components.row) (r : Components.row) :
  r ∈ rows → is_Some (Components.process_rows rows !! Components.Level r).
Proof.
  induction rows as [|r' rows IH] using rev_ind.
  { by intros ?%elem_of_nil. }
  intros Hr. rewrite component_rows_snoc. case_decide; [eauto|].
  apply IH. apply elem_of_app in Hr as [|Hr]; [done|].
  apply list_elem_of_singleton in Hr as ->. done.
Qed.

(** Reading the driver table after one more row. *)
Lemma driver_rows_snoc (rows : list DriverTable.row) (r : DriverTable.row) (l : Z) :
  DriverTable.process_rows (rows ++ [r]) !! l
  = match DriverTable.Level r with
    | Some lvl =>
        if decide (lvl = l) then Some (DriverTable.level_entry lvl r)
        else DriverTable.process_rows rows !! l
    | None => DriverTable.process_rows rows !! l
    end.
Proof.
  unfold DriverTable.process_rows. rewrite foldl_app. cbn [foldl].
  destruct (DriverTable.Level r); [apply lookup_insert|done].
Qed.

Lemma driver_rows_lookup (rows : list DriverTable.row) (l : Z)
    (e : Drivers.level_stats) :
  DriverTable.process_rows rows !! l = Some e →
  ∃ r, r ∈ rows ∧ DriverTable.Level r = Some l
       ∧ e = DriverTable.level_entry l r.
Proof.
  induction rows as [|r rows IH] using rev_ind.
  { change (DriverTable.process_rows []) with (∅ : gmap Z Drivers.level_stats).
    by rewrite lookup_empty. }
  rewrite driver_rows_snoc.
  destruct (DriverTable.Level r) as [lvl|] eqn:Hlvl.
  - case_decide as Hl.
    + intros [= <-]. subst lvl. exists r. split; [set_solver|done].
    + intros (r' & Hr' & ? & ?)%IH. exists r'. split; [set_solver|done].
  - intros (r' & Hr' & ? & ?)%IH. exists r'. split; [set_solver|done].
Qed.

End ProcessorTables.

(** X11. The level table the component processor builds from rows: an
    entry stored under level [l] carries [l] as its own level and is the
    entry of a row of level [l]; every row's level has an entry; and a row
    replaces what an earlier row of the same level left, without touching
    the other levels. *)
Theorem component_table_of_rows (rows : list Components.row) :
  (∀ l e, Components.process_rows rows !! l = Some e →
     Components.level e = l
     ∧ ∃ r, r ∈ rows ∧ Components.Level r = l ∧ e = Components.level_entry r)
  ∧ (∀ r, r ∈ rows →
       is_Some (Components.process_rows rows !! Components.Level r))
  ∧ (∀ r, Components.process_rows (rows ++ [r]) !! Components.Level r
          = Some (Components.level_entry r))
  ∧ (∀ r l, Components.Level r ≠ l →
       Components.process_rows (rows ++ [r]) !! l
       = Components.process_rows rows !! l).
Proof.
  split; [|split; [|split]].
  - intros l e He.
    destruct (component_rows_lookup rows l e He) as (r & Hr & Hl & ->).
    split; [done|]. by exists r.
  - apply component_rows_covered.
  - intros r. rewrite component_rows_snoc. by case_decide.
  - intros r l Hne. rewrite component_rows_snoc. by case_decide.
Qed.

(** X12. The level table the driver processor builds from rows: an entry
    under level [l] carries [l] as its level and comes from a row of level
    [l]; a row without a usable level leaves the table as it was; a row
    with a level replaces the entry of that level only. *)
Theorem driver_table_of_rows (rows : list DriverTable.row) :
  (∀ l e, DriverTable.process_rows rows !! l = Some e →
     Drivers.level e = l
     ∧ ∃ r, r ∈ rows ∧ DriverTable.Level r = Some l
            ∧ e = DriverTable.level_entry l r)
  ∧ (∀ r, DriverTable.Level r = None →
       DriverTable.process_rows (rows ++ [r]) = DriverTable.process_rows rows)
  ∧ (∀ r lvl, DriverTable.Level r = Some lvl →
       DriverTable.process_rows (rows ++ [r]) !! lvl
       = Some (DriverTable.level_entry lvl r)
       ∧ ∀ l, l ≠ lvl →
           DriverTable.process_rows (rows ++ [r]) !! l
           = DriverTable.process_rows rows !! l).
Proof.
  split; [|split].
  - intros l e He.
    destruct (driver_rows_lookup rows l e He) as (r & Hr & Hl & ->).
    split; [done|]. by exists r.
  - intros r Hr. apply map_eq. intros l.
    by rewrite driver_rows_snoc, Hr.
  - intros r lvl Hr. split.
    + rewrite driver_rows_snoc, Hr. by case_decide.
    + intros l Hne. rewrite driver_rows_snoc, Hr. by case_decide.
Qed.

(** X13. Every bundle [get_driver_stats] returns from a raw data file
    written by the driver processor, stored or interpolated, has as its
    [total_value] the sum of its five stats. *)
Theorem driver_total_value_sums_stats (raw_data : gmap string Drivers.driver)
    (n rarity : string) (lvl : Z) (interpolate : bool)
    (b : Drivers.level_stats) :
  DriverTable.written_by_processor raw_data →
  Drivers.get_driver_stats raw_data n rarity lvl interpolate = Some b →
  Drivers.total_value b = DriverTable.stats_sum b.
Proof.
  intros Hw Hget.
  assert (∀ d l e, raw_data !! (n +:+ "_" +:+ rarity)%string = Some d →
            Drivers.levels d !! l = Some e →
            Drivers.total_value e = DriverTable.stats_sum e) as Hstored.
  { intros d l e Hd He. destruct (Hw _ d Hd) as [rows Hrows].
    rewrite Hrows in He.
    by apply driver_rows_lookup in He as (r & _ & _ & ->). }
  unfold Drivers.get_driver_stats in Hget. cbn zeta in Hget.
  destruct (raw_data !! _) as [d|] eqn:Hd; [|done].
  destruct (Drivers.levels d !! lvl) as [e|] eqn:He.
  { injection Hget as <-. by eapply Hstored. }
  destruct interpolate; [|done].
  destruct (Interp.scan_levels _ _ _) as [[lo|] [hi|]].
  - destruct (Drivers.levels d !! lo) as [el|]; [|done].
    destruct (Drivers.levels d !! hi) as [eh|]; [|done].
    by injection Hget as <-.
  - by eapply Hstored.
  - by eapply Hstored.
  - done.
Qed.

Lemma processed_driver_written : DriverTable.written_by_processor processed_driver.
Proof.
  intros k d Hd. exists sample_driver_rows. unfold processed_driver in Hd.
  apply lookup_singleton_Some in Hd as [_ <-]. reflexivity.
Qed.

Lemma driver_total_value_sums_stats_witness :
  ∃ b, Drivers.get_driver_stats processed_driver "Bottas" "Epic" 3 true = Some b
    ∧ Drivers.total_value b = DriverTable.stats_sum b.
Proof.
  eexists. split; [vm_compute; reflexivity|].
  eapply (driver_total_value_sums_stats processed_driver "Bottas" "Epic" 3 true).
  - apply processed_driver_written.
  - vm_compute; reflexivity.
Defined.

(** ** More on the two matchers *)

Section MatcherFacts.
Import Series.

Lemma track_stats_values (label attr : string) :
  TRACK_STATS_TO_ATTRIBUTES !! label = Some attr →
  attr ∈ ["defending"; "tyre_mgmt"; "speed"; "overtaking"; "cornering";
          "race_start"; "power_unit"; "custom"]%string.
Proof.
  intros H. apply elem_of_list_to_map_2 in H.
  repeat (apply elem_of_cons in H as [[= _ ->]|H]; [set_solver|]).
  by apply elem_of_nil in H.
Qed.

(** Both matchers add the same driver part to the score. *)
Lemma loadout_score_series_score (f ts : string) (l : loadout) :
  loadout_score f ts l
  = series_score f (car_stats_of l) (driver_stats_of l) (total_value_of l) ts.
Proof.
  destruct (decide (f = "overtaking"%string)) as [->|H1]; [reflexivity|].
  destruct (decide (f = "defending"%string)) as [->|H2]; [reflexivity|].
  destruct (decide (f = "qualifying"%string)) as [->|H3]; [reflexivity|].
  destruct (decide (f = "race_start"%string)) as [->|H4]; [reflexivity|].
  destruct (decide (f = "tyre_mgmt"%string)) as [->|H5]; [reflexivity|].
  unfold loadout_score, series_score. cbn zeta.
  rewrite !bool_decide_eq_false_2
    by (intros Hin;
        repeat (apply elem_of_cons in Hin as [?|Hin]; [done|]);
        by apply elem_of_nil in Hin).
  apply String.eqb_neq in H4, H5. by rewrite H4, H5.
Qed.

(** The score of a loadout depends on its calculations alone. *)
Lemma loadout_score_calcs (f ts : string) (l1 l2 : loadout) :
  calcs l1 = calcs l2 → loadout_score f ts l1 = loadout_score f ts l2.
Proof.
  intros H. rewrite !loadout_score_series_score.
  unfold car_stats_of, driver_stats_of, total_value_of. by rewrite H.
Qed.


(** The scored pairs of the loadout matcher. *)
Lemma scored_loadouts (f ts : string) (loadouts : list loadout)
    (scored : list (loadout * Q)) :
  mapM (λ l, score ← loadout_score f ts l; Some (l, score)) loadouts
  = Some scored →
  scored.*1 = loadouts
  ∧ ∀ l s, (l, s) ∈ scored → loadout_score f ts l = Some s.
Proof.
  revert scored. induction loadouts as [|l ls IH]; intros scored H.
  { injection H as <-. split; [done|].
    intros l s Hin. by apply elem_of_nil in Hin. }
  cbn [mapM] in H. apply bind_Some in H as ([l' s] & Hl & H).
  apply bind_Some in Hl as (s' & Hs' & [= <- <-]).
  apply bind_Some in H as (rest & Hrest & [= <-]).
  destruct (IH rest Hrest) as [Hfst Hall]. split.
  - cbn. by rewrite Hfst.
  - intros l0 s0 [[= -> ->]|Hin]%elem_of_cons; [done|by apply Hall].
Qed.

Lemma scored_loadouts_is_Some (f ts : string) (loadouts : list loadout) :
  is_Some (mapM (λ l, score ← loadout_score f ts l; Some (l, score)) loadouts)
  ↔ loadouts = [] ∨ ts_converts ts.
Proof.
  rewrite mapM_is_Some, Forall_forall.
  assert (∀ l, is_Some (score ← loadout_score f ts l; Some (l, score))
               ↔ ts_converts ts) as Hone.
  { intros l. rewrite loadout_score_series_score.
    rewrite <- (series_score_is_Some f (car_stats_of l) (driver_stats_of l)
                  (total_value_of l) ts).
    destruct (series_score _ _ _ _ _) as [score|]; cbn.
    - split; intros _; by eexists.
    - split; intros [? [=]]. }
  split.
  - intros H. destruct loadouts as [|l ls]; [by left|right].
    apply (Hone l), H. left.
  - intros [->|H] l Hin; [by apply elem_of_nil in Hin|by apply Hone].
Qed.

End MatcherFacts.

Section StableSort.
Import Series.
Context {A : Type} (key : A → Q) (P : A → Prop) {P_dec : ∀ a, Decision (P a)}.

(** Inserting [x] leaves elements of one score in their order, with [x] in
    front of those of its own score. *)
Lemma insert_desc_filter (x : A) (l : list A) :
  (∀ a b, a ∈ x :: l → b ∈ x :: l → P a → P b → (key a == key b)%Q) →
  filter P (insert_desc key x l) = filter P (x :: l).
Proof.
  induction l as [|y l IH]; intros Hkey; [done|]. cbn [insert_desc].
  destruct (Qle_bool (key y) (key x)) eqn:Hle; [done|].
  assert (key x < key y)%Q as Hlt.
  { apply Qnot_le_lt. intros H. apply Qle_bool_iff in H. congruence. }
  rewrite filter_cons, IH, !filter_cons.
  - destruct (decide (P y)) as [Hy|Hy]; destruct (decide (P x)) as [Hx|Hx];
      try done.
    assert (key x == key y)%Q as Heq.
    { apply Hkey; [left|right; left|done|done]. }
    rewrite Heq in Hlt. by apply Qlt_irrefl in Hlt.
  - intros a b Ha Hb. apply Hkey.
    + apply elem_of_cons in Ha as [->|Ha]; [left|by do 2 right].
    + apply elem_of_cons in Hb as [->|Hb]; [left|by do 2 right].
Qed.

Lemma sort_desc_filter (l : list A) :
  (∀ a b, a ∈ l → b ∈ l → P a → P b → (key a == key b)%Q) →
  filter P (sort_desc key l) = filter P l.
Proof.
  unfold sort_desc. induction l as [|x l IH]; intros Hkey; [done|].
  cbn [foldr]. rewrite insert_desc_filter.
  - rewrite !filter_cons, IH; [done|].
    intros a b Ha Hb. apply Hkey; by right.
  - intros a b Ha Hb. apply Hkey.
    + apply elem_of_cons in Ha as [->|Ha]; [left|right].
      by rewrite (sort_desc_perm key l) in Ha.
    + apply elem_of_cons in Hb as [->|Hb]; [left|right].
      by rewrite (sort_desc_perm key l) in Hb.
Qed.

End StableSort.

Lemma filter_fmap {A B} (f : A → B) (P : B → Prop) {P_dec : ∀ b, Decision (P b)}
    (l : list A) :
  filter P (f <$> l) = f <$> filter (λ a, P (f a)) l.
Proof.
  induction l as [|a l IH]; [done|]. cbn [fmap list_fmap].
  rewrite !filter_cons. destruct (decide (P (f a))); cbn [fmap list_fmap];
    by rewrite IH.
Qed.

(** X14. The focus attribute of a series is one of the eight attributes of
    the label table, ["speed"] for a label that is not in it: it is never
    ["pit_time"] and never ["qualifying"], so no series is scored on pit
    time or on qualifying. *)
Theorem focus_is_never_pit_time_or_qualifying (label : string) :
  Series.focus_of label
    ∈ ["defending"; "tyre_mgmt"; "speed"; "overtaking"; "cornering";
       "race_start"; "power_unit"; "custom"]%string
  ∧ Series.focus_of label ≠ "pit_time"%string
  ∧ Series.focus_of label ≠ "qualifying"%string.
Proof.
  assert (Series.focus_of label
            ∈ ["defending"; "tyre_mgmt"; "speed"; "overtaking"; "cornering";
               "race_start"; "power_unit"; "custom"]%string) as Hin.
  { unfold Series.focus_of.
    destruct (Series.TRACK_STATS_TO_ATTRIBUTES !! label) as [attr|] eqn:H.
    - by apply track_stats_values in H.
    - cbn. set_solver. }
  split; [done|].
  split; intros Heq; rewrite Heq in Hin;
    repeat (apply elem_of_cons in Hin as [Hin|Hin]; [discriminate|]);
    by apply elem_of_nil in Hin.
Qed.



(** X16. [find_best_loadouts_for_series] returns no loadout for a series
    number that is not in the catalog. For a series of the catalog it comes
    to a result exactly when there is no loadout to score or the two bounds
    of the series' range can be read, and the result then holds every
    loadout once, none dropped, by descending score. *)
Theorem best_loadouts_ranks_every_loadout (SERIES_DATA : list Series.series_info)
    (series_number : Z) (loadouts : list Series.loadout)
    (rot : option (gmap string string)) :
  ((∀ s, s ∈ SERIES_DATA → Series.series s ≠ series_number) →
   Series.find_best_loadouts_for_series SERIES_DATA series_number loadouts rot
   = Some [])
  ∧ (∀ si,
       find (λ s, Series.series s =? series_number) SERIES_DATA = Some si →
       (is_Some (Series.find_best_loadouts_for_series SERIES_DATA series_number
                   loadouts rot)
        ↔ loadouts = []
          ∨ (is_Some (Series.min_ts (Text.split_ts (Series.recommended_ts si)))
             ∧ is_Some (Series.max_ts
                          (Text.split_ts (Series.recommended_ts si)))))
       ∧ ∀ result,
           Series.find_best_loadouts_for_series SERIES_DATA series_number
             loadouts rot = Some result →
           result.*1 ≡ₚ loadouts
           ∧ length result = length loadouts
           ∧ StronglySorted (λ a b, (snd b <= snd a)%Q) result).
Proof.
  unfold Series.find_best_loadouts_for_series. split.
  - intros Hnone.
    destruct (find _ SERIES_DATA) as [s|] eqn:Hfind; [|done].
    apply find_some in Hfind as [Hin Heq].
    apply Z.eqb_eq in Heq. apply list_elem_of_In in Hin.
    by destruct (Hnone s Hin).
  - intros si ->. cbn zeta. split.
    + change (is_Some (Series.min_ts (Text.split_ts (Series.recommended_ts si)))
              ∧ is_Some (Series.max_ts
                           (Text.split_ts (Series.recommended_ts si))))
        with (Series.ts_converts (Series.recommended_ts si)).
      rewrite <- (scored_loadouts_is_Some
                    (Series.focus_of
                       (Series.resolve_track_stats rot series_number
                          (Series.track_stats si)))).
      destruct (mapM _ loadouts) as [scored|]; cbn.
      * split; intros _; by eexists.
      * split; intros [? [=]].
    + intros result H. apply bind_Some in H as (scored & Hscored & [= <-]).
      apply scored_loadouts in Hscored as [Hfst _].
      split; [by rewrite sort_desc_perm, Hfst|].
      split; [by rewrite sort_desc_perm, <- Hfst, length_fmap|].
      apply (sort_desc_sorted snd).
Qed.

(** X17. The ranking of loadouts keeps loadouts of equal calculations in
    their order: of loadouts whose calculations (car stats, driver stats
    and total value) are the same, and which so get one and the same score
    for a series, each comes out behind those that were passed in before
    it. *)
Theorem best_loadouts_keeps_order_of_ties (SERIES_DATA : list Series.series_info)
    (rot : option (gmap string string)) (si : Series.series_info)
    (loadouts : list Series.loadout) (result : list (Series.loadout * Q))
    (same : Series.loadout → bool) :
  find (λ s, Series.series s =? Series.series si) SERIES_DATA = Some si →
  (∀ l1 l2, l1 ∈ loadouts → l2 ∈ loadouts → same l1 = true → same l2 = true →
     Series.calcs l1 = Series.calcs l2) →
  Series.find_best_loadouts_for_series SERIES_DATA (Series.series si) loadouts
    rot = Some result →
  filter (λ l, same l = true) result.*1 = filter (λ l, same l = true) loadouts.
Proof.
  intros Hfind Hsame. unfold Series.find_best_loadouts_for_series.
  rewrite Hfind. cbn zeta. intros H.
  apply bind_Some in H as (scored & Hscored & [= <-]).
  apply scored_loadouts in Hscored as [Hfst Hscore].
  rewrite <- Hfst, !filter_fmap. f_equal.
  apply (sort_desc_filter snd). intros [l1 s1] [l2 s2] H1 H2 Hs1 Hs2. cbn in *.
  assert (Some s1 = Some s2) as [= ->]; [|reflexivity].
  rewrite <- (Hscore l1 s1 H1), <- (Hscore l2 s2 H2).
  apply loadout_score_calcs, Hsame; [| |done|done].
  - rewrite <- Hfst. by apply (list_elem_of_fmap_2 fst) in H1.
  - rewrite <- Hfst. by apply (list_elem_of_fmap_2 fst) in H2.
Qed.

Lemma best_loadouts_keeps_order_of_ties_witness :
  ∃ result,
    Series.find_best_loadouts_for_series Series.DEFAULT_SERIES_DATA 3
      [sample_series_loadout;
       {| Series.id := 2; Series.title := "Twin";
          Series.calcs := Series.calcs sample_series_loadout |}] None
    = Some result
    ∧ filter (λ l, true = true) result.*1
      = filter (λ l, true = true)
          [sample_series_loadout;
           {| Series.id := 2; Series.title := "Twin";
              Series.calcs := Series.calcs sample_series_loadout |}].
Proof.
  eexists. split; [vm_compute; reflexivity|].
  apply (best_loadouts_keeps_order_of_ties Series.DEFAULT_SERIES_DATA None
           {| Series.series := 3; Series.track_stats := "Speed";
              Series.recommended_ts := "350 - 600" |}
           [sample_series_loadout;
            {| Series.id := 2; Series.title := "Twin";
               Series.calcs := Series.calcs sample_series_loadout |}]
           _ (λ _, true)).
  - reflexivity.
  - intros l1 l2 H1 H2 _ _.
    apply elem_of_cons in H1 as [->|H1];
      [|apply list_elem_of_singleton in H1 as ->];
      (apply elem_of_cons in H2 as [->|H2];
        [|apply list_elem_of_singleton in H2 as ->]); reflexivity.
  - vm_compute; reflexivity.
Defined.

(** X18. The five entries the series matcher returns are the best ones:
    together with the entries it leaves out they make up the whole ranking,
    and no entry left out scores higher than an entry returned. The matcher
    is without a result only where the ranking is. *)
Theorem matcher_keeps_the_best (SERIES_DATA : list Series.series_info)
    (rot : option (gmap string string)) (l : Series.loadout) :
  match Series.find_matching_series_for_loadout SERIES_DATA rot l with
  | Some result =>
      ∃ scores rest : list Series.series_entry,
        Series.series_scores SERIES_DATA rot l = Some scores
        ∧ result ++ rest ≡ₚ scores
        ∧ ∀ e e', e ∈ result → e' ∈ rest →
            (Series.e_score e' <= Series.e_score e)%Q
  | None => Series.series_scores SERIES_DATA rot l = None
  end.
Proof.
  unfold Series.find_matching_series_for_loadout.
  destruct (Series.series_scores SERIES_DATA rot l) as [scores|]; [|done].
  cbn. exists scores, (drop 5 (Series.sort_desc Series.e_score scores)).
  split; [done|]. split.
  - rewrite take_drop. apply sort_desc_perm.
  - intros e e' He He'.
    pose proof (sort_desc_sorted Series.e_score scores) as Hs.
    rewrite <- (take_drop 5) in Hs.
    exact (StronglySorted_app_1_elem_of _ _ _ _ _ Hs He He').
Qed.

(** X19. Where the two bounds of the recommended range can be read, the
    range never raises a score, and it leaves the score as it is when the
    total value lies between the two bounds. *)
Theorem ts_range_only_penalises (ts : string) (tv score r : Q) :
  Series.apply_ts_range ts tv score = Some r →
  (r <= score)%Q
  ∧ ∀ lo hi,
      Series.min_ts (Text.split_ts ts) = Some lo →
      Series.max_ts (Text.split_ts ts) = Some hi →
      (inject_Z lo <= tv)%Q → (tv <= inject_Z hi)%Q → r = score.
Proof.
  intros (lo & hi & Hlo & Hhi & ->)%apply_ts_range_Some. split.
  - unfold Series.range_penalty.
    destruct (Series.Qlt_bool tv _) eqn:H1.
    { apply Qlt_bool_true in H1. lra. }
    destruct (Series.Qlt_bool _ tv) eqn:H2; [|lra].
    apply Qlt_bool_true in H2. lra.
  - intros lo' hi' Hlo' Hhi' Hle1 Hle2.
    assert (lo' = lo) as -> by congruence.
    assert (hi' = hi) as -> by congruence.
    by apply range_penalty_inside.
Qed.

Lemma ts_range_only_penalises_witness :
  (Series.range_penalty 350 600 300 100 <= 100)%Q
  ∧ (Series.range_penalty 350 600 500 100 <= 100)%Q.
Proof.
  split.
  - apply (ts_range_only_penalises "350 - 600" 300 100
             (Series.range_penalty 350 600 300 100)).
    vm_compute; reflexivity.
  - apply (ts_range_only_penalises "350 - 600" 500 100
             (Series.range_penalty 350 600 500 100)).
    vm_compute; reflexivity.
Defined.

(** X20. With everything else alike, a higher total value never lowers a
    series score as long as it stays at or below the upper bound of the
    recommended range. *)
Theorem series_score_in_total_value (f : string) (cs ds : gmap string Q)
    (ts : string) (tv1 tv2 : Q) (hi : Z) (s1 s2 : Q) :
  (tv1 <= tv2)%Q →
  Series.max_ts (Text.split_ts ts) = Some hi →
  (tv2 <= inject_Z hi)%Q →
  Series.series_score f cs ds tv1 ts = Some s1 →
  Series.series_score f cs ds tv2 ts = Some s2 →
  (s1 <= s2)%Q.
Proof.
  intros Hle Hhi Hle2. destruct (series_score_apply f cs ds ts) as [base Hbase].
  rewrite !Hbase.
  intros (lo1 & hi1 & Hlo1 & Hhi1 & ->)%apply_ts_range_Some.
  intros (lo2 & hi2 & Hlo2 & Hhi2 & ->)%apply_ts_range_Some.
  assert (lo2 = lo1) as -> by congruence.
  assert (hi1 = hi) as -> by congruence.
  assert (hi2 = hi) as -> by congruence.
  unfold Series.range_penalty.
  repeat match goal with
  | |- context [Series.Qlt_bool ?x ?y] =>
      let H := fresh "Hcmp" in
      destruct (Series.Qlt_bool x y) eqn:H;
      [apply Qlt_bool_true in H|apply Qlt_bool_false_iff in H]
  end; lra.
Qed.

Lemma series_score_in_total_value_witness :
  ∃ s1 s2,
    Series.series_score "speed" {[ "speed"%string := 40%Q ]} ∅ 300 "350 - 600"
    = Some s1
    ∧ Series.series_score "speed" {[ "speed"%string := 40%Q ]} ∅ 500 "350 - 600"
      = Some s2
    ∧ (s1 <= s2)%Q.
Proof.
  eexists. eexists.
  split; [vm_compute; reflexivity|]. split; [vm_compute; reflexivity|].
  apply (series_score_in_total_value "speed" {[ "speed"%string := 40%Q ]} ∅
           "350 - 600" 300 500 600).
  - vm_compute. discriminate.
  - vm_compute; reflexivity.
  - vm_compute. discriminate.
  - vm_compute; reflexivity.
  - vm_compute; reflexivity.
Defined.

(** ** The eligibility check and its explanation *)

Section ValidationFacts.
Import GrandPrix Validation.

Lemma within_ceiling_true (series_of : string → Z) (m : Z) (slots : list slot) :
  within_ceiling series_of m slots = true
  ↔ ∀ s n, s ∈ slots → named s = Some n → series_of n ≤ m.
Proof.
  induction slots as [|s slots IH]; cbn [within_ceiling].
  { split; [|done]. intros _ s n Hs. by apply elem_of_nil in Hs. }
  destruct (named s) as [n|] eqn:Hn.
  - destruct (Z.ltb_spec m (series_of n)) as [Hlt|Hle].
    + split; [done|]. intros H. specialize (H s n ltac:(left) Hn). lia.
    + rewrite IH. split.
      * intros H s' n' Hs' Hn'. apply elem_of_cons in Hs' as [->|Hs'].
        -- rewrite Hn in Hn'. by injection Hn' as <-.
        -- by apply (H s').
      * intros H s' n' Hs'. apply H. by right.
  - rewrite IH. split.
    + intros H s' n' Hs' Hn'. apply elem_of_cons in Hs' as [->|Hs'].
      * by rewrite Hn in Hn'.
      * by apply (H s').
    + intros H s' n' Hs'. apply H. by right.
Qed.

Lemma invalid_drivers_nil (series_of : string → Z) (m : Z) (slots : list slot) :
  invalid_drivers series_of m slots = [] ↔ within_ceiling series_of m slots = true.
Proof.
  induction slots as [|s slots IH]; [done|].
  cbn [invalid_drivers within_ceiling].
  destruct (named s); [|done]. by destruct (_ <? _)%Z.
Qed.

Lemma invalid_components_nil (series_of : string → Z) (m : Z)
    (slots : list (string * slot)) :
  invalid_components series_of m slots = []
  ↔ within_ceiling series_of m (snd <$> slots) = true.
Proof.
  induction slots as [|[ty s] slots IH]; [done|].
  cbn [invalid_components within_ceiling fmap list_fmap snd].
  destruct (named s); [|done]. by destruct (_ <? _)%Z.
Qed.

Lemma invalid_items_nil (files : file_store) (l : loadout) (m : Z) :
  invalid_items files l m = []
  ↔ (within_ceiling (get_driver_series files) m (default [] (drivers l)) = true
     ∧ within_ceiling (get_component_series files) m
         (snd <$> default [] (components l)) = true).
Proof.
  unfold invalid_items.
  rewrite <- invalid_drivers_nil, <- invalid_components_nil.
  split; [by apply app_eq_nil|]. by intros [-> ->].
Qed.

Lemma is_valid_defined (files : file_store) (l : loadout) (category : string)
    (cat : GrandPrix.category) :
  GP_CATEGORIES !! category = Some cat →
  is_loadout_valid_for_category files l category = true
  ↔ invalid_items files l (max_series cat) = [].
Proof.
  intros Hcat. unfold is_loadout_valid_for_category. rewrite Hcat. cbn zeta.
  rewrite invalid_items_nil.
  destruct (within_ceiling (get_driver_series files) _ _); [|by split; [|intros []]].
  split; [done|by intros []].
Qed.

Lemma contains_message_differs (s : string) :
  ("Loadout contains items above Series " +:+ s)%string ≠ valid_message.
Proof. intros H. vm_compute in H. discriminate H. Qed.

Lemma invalid_drivers_complete (series_of : string → Z) (m : Z)
    (slots : list slot) (s : slot) (n : string) :
  s ∈ slots → named s = Some n → m < series_of n →
  driver_line n (series_of n) ∈ invalid_drivers series_of m slots.
Proof.
  intros Hs Hn Hlt. induction slots as [|s' slots IH].
  { by apply elem_of_nil in Hs. }
  cbn [invalid_drivers]. apply elem_of_cons in Hs as [<-|Hs].
  - rewrite Hn. cbn zeta. destruct (Z.ltb_spec m (series_of n)); [left|lia].
  - destruct (named s'); [cbn zeta; destruct (_ <? _)%Z|]; try right; by apply IH.
Qed.

Lemma invalid_components_complete (series_of : string → Z) (m : Z)
    (slots : list (string * slot)) (ty : string) (s : slot) (n : string) :
  (ty, s) ∈ slots → named s = Some n → m < series_of n →
  component_line ty n (series_of n) ∈ invalid_components series_of m slots.
Proof.
  intros Hs Hn Hlt. induction slots as [|[ty' s'] slots IH].
  { by apply elem_of_nil in Hs. }
  cbn [invalid_components]. apply elem_of_cons in Hs as [[= <- <-]|Hs].
  - rewrite Hn. cbn zeta. destruct (Z.ltb_spec m (series_of n)); [left|lia].
  - destruct (named s'); [cbn zeta; destruct (_ <? _)%Z|]; try right; by apply IH.
Qed.

Lemma find_series_first (n : string) (pre post : list catalog_item)
    (item : catalog_item) :
  Forall (λ i, name i ≠ Some n) pre → name item = Some n →
  find_series n (pre ++ item :: post) = Some (default 0 (series item)).
Proof.
  intros Hpre Hitem. induction Hpre as [|i pre Hi _ IH]; cbn [app find_series].
  - by rewrite bool_decide_eq_true_2.
  - by rewrite bool_decide_eq_false_2.
Qed.

End ValidationFacts.

(** X21. A loadout is valid for a category exactly when the category is
    one of [GP_CATEGORIES] and every named driver and every named component
    of the loadout has a series at or below the ceiling of the category. *)
Theorem valid_iff_all_within_ceiling
    (files : gmap string (gmap string (list GrandPrix.catalog_item)))
    (l : GrandPrix.loadout) (category : string) :
  GrandPrix.is_loadout_valid_for_category files l category = true
  ↔ ∃ cat, GrandPrix.GP_CATEGORIES !! category = Some cat
      ∧ (∀ s n, s ∈ default [] (GrandPrix.drivers l) →
           GrandPrix.named s = Some n →
           GrandPrix.get_driver_series files n ≤ GrandPrix.max_series cat)
      ∧ (∀ ty s n, (ty, s) ∈ default [] (GrandPrix.components l) →
           GrandPrix.named s = Some n →
           GrandPrix.get_component_series files n ≤ GrandPrix.max_series cat).
Proof.
  unfold GrandPrix.is_loadout_valid_for_category.
  destruct (GrandPrix.GP_CATEGORIES !! category) as [cat|];
    [|split; [done|by intros (? & ? & _)]].
  cbn zeta. split.
  - destruct (GrandPrix.within_ceiling (GrandPrix.get_driver_series files) _ _)
      eqn:Hd; [|done].
    intros Hc. exists cat. split; [done|].
    rewrite within_ceiling_true in Hd, Hc. split; [done|].
    intros ty s n Hin. apply Hc.
    apply list_elem_of_fmap. by exists (ty, s).
  - intros (cat' & [= <-] & Hd & Hc).
    apply within_ceiling_true in Hd. rewrite Hd.
    apply within_ceiling_true. intros s n Hs.
    apply list_elem_of_fmap in Hs as ([ty s'] & -> & Hin). by apply (Hc ty).
Qed.

(** X22. The explanation agrees with the check. For a category that is not
    defined the check fails and the message names the category; for a
    defined one the loadout is valid exactly when the list of offending
    items is empty, which is exactly when the message is the one that
    reports a valid loadout. *)
Theorem validation_message_agrees_with_check
    (files : gmap string (gmap string (list GrandPrix.catalog_item)))
    (l : GrandPrix.loadout) (category : string) :
  (GrandPrix.GP_CATEGORIES !! category = None →
     GrandPrix.is_loadout_valid_for_category files l category = false
     ∧ Validation.get_loadout_validation_message files l category
       = ("Invalid category: " +:+ category)%string)
  ∧ (∀ cat, GrandPrix.GP_CATEGORIES !! category = Some cat →
       (GrandPrix.is_loadout_valid_for_category files l category = true
        ↔ Validation.invalid_items files l (GrandPrix.max_series cat) = [])
       ∧ (GrandPrix.is_loadout_valid_for_category files l category = true
          ↔ Validation.get_loadout_validation_message files l category
            = Validation.valid_message)).
Proof.
  split.
  - intros Hcat. unfold GrandPrix.is_loadout_valid_for_category,
      Validation.get_loadout_validation_message. by rewrite Hcat.
  - intros cat Hcat.
    pose proof (is_valid_defined files l category cat Hcat) as Hiff.
    split; [done|]. rewrite Hiff.
    unfold Validation.get_loadout_validation_message. rewrite Hcat. cbn zeta.
    destruct (Validation.invalid_items files l _) as [|i items]; [done|].
    split; [done|]. intros H. by apply contains_message_differs in H.
Qed.

(** X23. The explanation does not stop at the first offender: every named
    driver and every named component whose series is above the ceiling has
    its line in the list of offending items. *)
Theorem every_offender_is_listed
    (files : gmap string (gmap string (list GrandPrix.catalog_item)))
    (l : GrandPrix.loadout) (max_series : Z) :
  (∀ s n, s ∈ default [] (GrandPrix.drivers l) →
     GrandPrix.named s = Some n →
     max_series < GrandPrix.get_driver_series files n →
     Validation.driver_line n (GrandPrix.get_driver_series files n)
       ∈ Validation.invalid_items files l max_series)
  ∧ (∀ ty s n, (ty, s) ∈ default [] (GrandPrix.components l) →
       GrandPrix.named s = Some n →
       max_series < GrandPrix.get_component_series files n →
       Validation.component_line ty n (GrandPrix.get_component_series files n)
         ∈ Validation.invalid_items files l max_series).
Proof.
  unfold Validation.invalid_items. split.
  - intros s n Hs Hn Hlt. apply elem_of_app. left.
    by eapply invalid_drivers_complete.
  - intros ty s n Hs Hn Hlt. apply elem_of_app. right.
    by eapply invalid_components_complete.
Qed.

Lemma every_offender_is_listed_witness :
  Validation.driver_line "Verstappen" 7
    ∈ Validation.invalid_items sample_files high_series_loadout 6
  ∧ Validation.component_line "rear_wing" "The Valkyrie" 8
      ∈ Validation.invalid_items sample_files high_series_loadout 6.
Proof.
  split.
  - apply (proj1 (every_offender_is_listed sample_files high_series_loadout 6)
             (slot_of "Verstappen") "Verstappen").
    + left.
    + reflexivity.
    + vm_compute; reflexivity.
  - apply (proj2 (every_offender_is_listed sample_files high_series_loadout 6)
             "rear_wing"%string (slot_of "The Valkyrie") "The Valkyrie"%string).
    + left.
    + reflexivity.
    + vm_compute; reflexivity.
Defined.

(** X24. The driver lookup takes the first match: when the drivers list of
    the drivers file holds an item named [n] with no item of that name
    before it, [get_driver_series] returns the series of that item, and 0
    when the item has no series. *)
Theorem driver_series_of_first_match
    (files : gmap string (gmap string (list GrandPrix.catalog_item)))
    (doc : gmap string (list GrandPrix.catalog_item)) (n : string)
    (pre post : list GrandPrix.catalog_item) (item : GrandPrix.catalog_item) :
  files !! GrandPrix.DRIVERS_FILE = Some doc →
  doc !! "drivers"%string = Some (pre ++ item :: post) →
  Forall (λ i, GrandPrix.name i ≠ Some n) pre →
  GrandPrix.name item = Some n →
  GrandPrix.get_driver_series files n = default 0 (GrandPrix.series item).
Proof.
  intros Hdoc Hlist Hpre Hitem.
  unfold GrandPrix.get_driver_series, GrandPrix.load_json_data. rewrite Hdoc.
  rewrite bool_decide_eq_true_2.
  - rewrite Hlist. cbn [from_option id].
    by rewrite (find_series_first n pre post item).
  - intros ->. by rewrite lookup_empty in Hlist.
Qed.

Lemma driver_series_of_first_match_witness :
  GrandPrix.get_driver_series sample_files "Albon" = 2.
Proof.
  apply (driver_series_of_first_match sample_files
           {[ "drivers"%string :=
                [ {| GrandPrix.name := Some "Verstappen"%string; GrandPrix.series := Some 7 |};
                  {| GrandPrix.name := Some "Albon"%string; GrandPrix.series := Some 2 |};
                  {| GrandPrix.name := Some "Rookie"%string; GrandPrix.series := None |} ] ]}
           "Albon"
           [ {| GrandPrix.name := Some "Verstappen"%string; GrandPrix.series := Some 7 |} ]
           [ {| GrandPrix.name := Some "Rookie"%string; GrandPrix.series := None |} ]
           {| GrandPrix.name := Some "Albon"%string; GrandPrix.series := Some 2 |}).
  - vm_compute; reflexivity.
  - vm_compute; reflexivity.
  - constructor; [discriminate|constructor].
  - reflexivity.
Defined.

(** ** Deleting a loadout *)

Section LoadoutListFacts.
Import LoadoutList.

Lemma renumber_ids (loadouts : list Series.loadout) :
  Series.id <$> renumber loadouts = seqZ 1 (Z.of_nat (length loadouts)).
Proof.
  unfold renumber. rewrite fmap_imap.
  rewrite (imap_ext _ (λ j _, Z.of_nat j + 1)) by done.
  rewrite imap_seq_0. unfold seqZ. by rewrite Nat2Z.id.
Qed.

Lemma renumber_titles (loadouts : list Series.loadout) :
  Series.title <$> renumber loadouts = Series.title <$> loadouts.
Proof.
  unfold renumber. rewrite fmap_imap.
  rewrite (imap_ext _ (const Series.title)) by done.
  apply imap_const.
Qed.

Lemma renumber_calcs (loadouts : list Series.loadout) :
  Series.calcs <$> renumber loadouts = Series.calcs <$> loadouts.
Proof.
  unfold renumber. rewrite fmap_imap.
  rewrite (imap_ext _ (const Series.calcs)) by done.
  apply imap_const.
Qed.

End LoadoutListFacts.

(** X25. Deleting the loadout at a position inside the list leaves the
    other loadouts in their order, with their titles and calculations, and
    numbers them 1, 2, ... anew, whatever their ids were; a position past
    the end deletes nothing. *)
Theorem delete_loadout_renumbers (idx : nat) (loadouts : list Series.loadout) :
  (length loadouts ≤ idx)%nat ∧ LoadoutList.delete_loadout idx loadouts = None
  ∨ (idx < length loadouts)%nat
    ∧ ∃ rest, LoadoutList.delete_loadout idx loadouts = Some rest
        ∧ Series.id <$> rest = seqZ 1 (Z.of_nat (length loadouts) - 1)
        ∧ Series.title <$> rest = delete idx (Series.title <$> loadouts)
        ∧ Series.calcs <$> rest = delete idx (Series.calcs <$> loadouts).
Proof.
  unfold LoadoutList.delete_loadout. case_decide as Hidx.
  - right. split; [done|]. eexists. split; [reflexivity|].
    rewrite renumber_ids, renumber_titles, renumber_calcs.
    rewrite !list_fmap_delete. split; [|done].
    f_equal. rewrite length_delete by (by apply lookup_lt_is_Some_2). lia.
  - left. split; [lia|done].
Qed.

(** ** The component lookup across the component files *)

Section ComponentLookup.
Import GrandPrix.

(** One round of the loop of [get_component_series], in terms of the list
    the file contributes. *)
Lemma component_series_in_cons (files : file_store) (n ty fp : string)
    (rest : list (string * string)) :
  component_series_in files n ((ty, fp) :: rest)
  = match find_series n (CatalogView.items_of files ty fp) with
    | Some s => s
    | None => component_series_in files n rest
    end.
Proof.
  cbn [component_series_in]. unfold CatalogView.items_of.
  destruct (load_json_data files fp) as [doc|]; [|done].
  case_bool_decide as Hdoc; [done|].
  subst doc. by rewrite lookup_empty.
Qed.

Lemma component_series_in_first (files : file_store) (n : string)
    (pre post : list (string * string)) (ty fp : string) (s : Z) :
  Forall (λ p, find_series n (CatalogView.items_of files p.1 p.2) = None) pre →
  find_series n (CatalogView.items_of files ty fp) = Some s →
  component_series_in files n (pre ++ (ty, fp) :: post) = s.
Proof.
  intros Hpre Hfound. induction Hpre as [|[ty' fp'] pre Hp _ IH]; cbn [app].
  - by rewrite component_series_in_cons, Hfound.
  - rewrite component_series_in_cons. cbn [fst snd] in Hp. by rewrite Hp.
Qed.

End ComponentLookup.

(** X26. The component lookup goes through the component files in the
    order of [COMPONENT_FILES] and takes the first match: when no file
    before the file of a type lists the name [n], and the list of that
    file holds an item named [n] with no item of that name before it,
    [get_component_series] returns the series of that item, 0 when it has
    none. *)
Theorem component_series_of_first_match
    (files : gmap string (gmap string (list GrandPrix.catalog_item)))
    (n ty fp : string) (pre post : list (string * string))
    (before after : list GrandPrix.catalog_item) (item : GrandPrix.catalog_item) :
  GrandPrix.COMPONENT_FILES = pre ++ (ty, fp) :: post →
  Forall (λ p, Forall (λ i, GrandPrix.name i ≠ Some n)
                 (CatalogView.items_of files p.1 p.2)) pre →
  CatalogView.items_of files ty fp = before ++ item :: after →
  Forall (λ i, GrandPrix.name i ≠ Some n) before →
  GrandPrix.name item = Some n →
  GrandPrix.get_component_series files n = default 0 (GrandPrix.series item).
Proof.
  intros Hfiles Hpre Hitems Hbefore Hitem.
  unfold GrandPrix.get_component_series. rewrite Hfiles.
  apply component_series_in_first.
  - eapply Forall_impl; [exact Hpre|]. intros p Hp.
    by apply find_series_absent.
  - rewrite Hitems. by apply find_series_first.
Qed.

Lemma component_series_of_first_match_witness :
  GrandPrix.get_component_series sample_files "The Valkyrie" = 8.
Proof.
  apply (component_series_of_first_match sample_files "The Valkyrie"
           "Rear Wing" "components_rearwing.json"
           [ ("Brakes"%string, "components_brakes.json"%string);
             ("Gearbox"%string, "components_gearbox.json"%string) ]
           [ ("Front Wing"%string, "components_frontwing.json"%string);
             ("Suspension"%string, "components_suspension.json"%string);
             ("Engine"%string, "components_engine.json"%string) ]
           [] []
           {| GrandPrix.name := Some "The Valkyrie"%string;
              GrandPrix.series := Some 8 |}).
  - reflexivity.
  - repeat constructor. discriminate.
  - vm_compute; reflexivity.
  - constructor.
  - reflexivity.
Defined.
